(** * Render-loop helpers of the three.js starter: frame pacing,
      resolution scaling and frustum culling

    The development embeds the exported functions of the performance
    module ([optimizeRenderLoop], [limitFrameRate],
    [dynamicResolutionScaling], [manageResourceIntensiveObjects]) and
    [renderWithComposer] of the post-processing module, and proves what
    they do frame by frame.

    Modelling choices, shared by every section:
    - a JavaScript number is a [num]: an exact rational, one of the two
      infinities, or NaN.  Rounding of IEEE doubles is abstracted
      (arithmetic on finite values is exact) and the negative zero is
      identified with zero; a statement that would depend on either is
      made for the inputs on which the two arithmetics agree (whole
      milliseconds, see [exact_ms]);
    - a JavaScript function is a computation of the [JS] monad: a state
      transformer whose result is a value or a thrown exception.  State
      changes made before a [throw] persist, as they do in JavaScript;
    - [requestAnimationFrame(loop)] adds one request to the host's
      callback list; the host ([frame]) runs the callbacks registered
      before the frame started, passes them the frame's timestamp and
      reports (does not propagate) what they throw. *)

From Stdlib Require Import QArith Qround Qreduction ZArith Lia Lqa.
From Stdlib Require Qcanon.
From stdpp Require Import gmap list strings.

Set Implicit Arguments.
Unset Strict Implicit.

(** ** JavaScript numbers *)

Inductive num : Type :=
| Fin (q : Q)
| PInf
| NInf
| NaN.

Definition Qgtb (x y : Q) : bool := negb (Qle_bool x y).
Definition Qltb (x y : Q) : bool := negb (Qle_bool y x).

(** Integer part of a rational, rounding towards zero. *)
Definition Qtrunc (x : Q) : Z := Z.quot (Qnum x) (Zpos (Qden x)).

(** [a - b] *)
Definition sub (a b : num) : num :=
  match a, b with
  | NaN, _ | _, NaN => NaN
  | Fin x, Fin y => Fin (Qred (x - y))
  | Fin _, PInf => NInf
  | Fin _, NInf => PInf
  | PInf, PInf => NaN
  | PInf, _ => PInf
  | NInf, NInf => NaN
  | NInf, _ => NInf
  end.

(** [a + b] *)
Definition add (a b : num) : num :=
  match a, b with
  | NaN, _ | _, NaN => NaN
  | Fin x, Fin y => Fin (Qred (x + y))
  | Fin _, PInf => PInf
  | Fin _, NInf => NInf
  | PInf, NInf => NaN
  | PInf, _ => PInf
  | NInf, PInf => NaN
  | NInf, _ => NInf
  end.

(** [a / b]; a zero divisor is the positive zero. *)
Definition div (a b : num) : num :=
  match a, b with
  | NaN, _ | _, NaN => NaN
  | Fin x, Fin y =>
      if Qeq_bool y 0 then
        if Qeq_bool x 0 then NaN else if Qltb 0 x then PInf else NInf
      else Fin (Qred (x / y))
  | Fin _, _ => Fin 0
  | PInf, Fin y => if Qle_bool 0 y then PInf else NInf
  | NInf, Fin y => if Qle_bool 0 y then NInf else PInf
  | _, _ => NaN
  end.

(** [a % b]: the remainder of the division truncated towards zero; it
    has the sign of the dividend. *)
Definition rem (a b : num) : num :=
  match a, b with
  | Fin x, Fin y =>
      if Qeq_bool y 0 then NaN
      else Fin (Qred (x - y * inject_Z (Qtrunc (x / y))))
  | Fin x, (PInf | NInf) => Fin x
  | _, _ => NaN
  end.

(** [a > b] and [a < b]; every comparison with NaN is false. *)
Definition gt (a b : num) : bool :=
  match a, b with
  | NaN, _ | _, NaN => false
  | Fin x, Fin y => Qgtb x y
  | PInf, PInf => false
  | PInf, _ => true
  | _, NInf => match a with NInf => false | _ => true end
  | _, _ => false
  end.

Definition lt (a b : num) : bool := gt b a.

(** [Math.max(a, b)] and [Math.min(a, b)]. *)
Definition Math_max (a b : num) : num :=
  match a, b with
  | NaN, _ | _, NaN => NaN
  | _, _ => if gt b a then b else a
  end.

Definition Math_min (a b : num) : num :=
  match a, b with
  | NaN, _ | _, NaN => NaN
  | _, _ => if lt b a then b else a
  end.

(** Truthiness of a number: [0] and [NaN] are falsy. *)
Definition truthy (a : num) : bool :=
  match a with
  | Fin x => negb (Qeq_bool x 0)
  | NaN => false
  | _ => true
  end.

(** [a || b] on numbers. *)
Definition or_else (a b : num) : num := if truthy a then a else b.

(** Numeric order as a proposition, for statements. *)
Definition num_le (a b : num) : Prop :=
  match a, b with
  | Fin x, Fin y => (x <= y)%Q
  | NInf, (Fin _ | PInf | NInf) => True
  | (Fin _ | PInf), PInf => True
  | _, _ => False
  end.


(** ** Computations that may throw *)

Definition exn : Type := string.

Inductive result (A : Type) : Type :=
| Ok (a : A)
| Threw (e : exn).
Arguments Ok {A} a.
Arguments Threw {A} e.

Definition JS (S A : Type) : Type := S -> S * result A.

Definition ret {S A} (a : A) : JS S A := fun s => (s, Ok a).

Definition throw {S A} (e : exn) : JS S A := fun s => (s, Threw e).

Definition bind {S A B} (m : JS S A) (k : A -> JS S B) : JS S B :=
  fun s =>
    match m s with
    | (s', Ok a) => k a s'
    | (s', Threw e) => (s', Threw e)
    end.

Definition gets {S A} (f : S -> A) : JS S A := fun s => (s, Ok (f s)).

Definition modify {S} (f : S -> S) : JS S unit := fun s => (f s, Ok tt).

Declare Scope js_scope.
Delimit Scope js_scope with js.
Notation "x <- m ;; k" := (bind m (fun x => k))
  (at level 100, m at next level, k at level 200, right associativity)
  : js_scope.
Notation "m ;; k" := (bind m (fun _ => k))
  (at level 100, k at level 200, right associativity) : js_scope.
Open Scope js_scope.

(** ** The host: animation frames *)

(** What a running loop can reach.  [vars] holds the closure variables
    of the exported function and the objects it was given; [pending]
    counts the [requestAnimationFrame(loop)] requests not yet served;
    [calls] is a ghost counter of the invocations of the per-frame
    callback the caller supplied; [reported] lists the exceptions the
    host caught from animation-frame callbacks. *)
Record World (C : Type) : Type := mkWorld {
  vars : C;
  pending : nat;
  calls : nat;
  reported : list exn;
}.

Section Host.
Context {C : Type}.

Definition requestAnimationFrame : JS (World C) unit :=
  modify (fun w => mkWorld (vars w) (S (pending w)) (calls w) (reported w)).

(** Run a computation of the caller on the part of the variables it
    owns, counting the invocation. *)
Definition call {U} (proj : C -> U) (inj : U -> C -> C) (f : JS U unit)
  : JS (World C) unit :=
  fun w =>
    let (u, r) := f (proj (vars w)) in
    (mkWorld (inj u (vars w)) (pending w) (S (calls w)) (reported w), r).

(** Reads and writes of the closure variables. *)
Definition read {A} (f : C -> A) : JS (World C) A := gets (fun w => f (vars w)).

Definition write (f : C -> C) : JS (World C) unit :=
  modify (fun w => mkWorld (f (vars w)) (pending w) (calls w) (reported w)).

(** One callback run by the host: an exception ends the callback and is
    reported. *)
Definition run_callback (cb : JS (World C) unit) (w : World C) : World C :=
  match cb w with
  | (w', Ok _) => w'
  | (w', Threw e) =>
      mkWorld (vars w') (pending w') (calls w') (reported w' ++ [e])
  end.

(** One display refresh at time [now]: the requests made so far are
    served, those made meanwhile wait for the next frame. *)
Definition frame (loop : num -> JS (World C) unit) (now : num) (w : World C)
  : World C :=
  Nat.iter (pending w) (run_callback (loop now))
    (mkWorld (vars w) 0 (calls w) (reported w)).

(** Successive refreshes. *)
Definition frames (loop : num -> JS (World C) unit) (ticks : list num)
  (w : World C) : World C :=
  fold_left (fun w now => frame loop now w) ticks w.

(** The script that calls an exported function: what it throws is
    reported like any uncaught exception. *)
Definition start (main : JS (World C) unit) (w : World C) : World C :=
  run_callback main w.
End Host.

Definition boot {C} (c : C) : World C := mkWorld c 0 0 [].

(** ** performance module: [optimizeRenderLoop] *)

Section optimizeRenderLoop.
Context {U : Type}.
Variable renderFunction : JS U unit.

(** [function loop() { requestAnimationFrame(loop); renderFunction(); }] *)
Definition optimizeRenderLoop_loop : JS (World U) unit :=
  requestAnimationFrame ;;
  call (fun u => u) (fun u _ => u) renderFunction.

Definition optimizeRenderLoop : JS (World U) unit :=
  optimizeRenderLoop_loop.
End optimizeRenderLoop.

(** ** post-processing module: [renderWithComposer] *)

Section renderWithComposer.
Context {U : Type}.
(** [composer.render], and the optional [customRender]. *)
Variable composer_render : JS U unit.
Variable customRender : option (JS U unit).

(** [function render() { if (customRender) { customRender(); }
     composer.render(); requestAnimationFrame(render); }] *)
Definition renderWithComposer_render : JS (World U) unit :=
  match customRender with
  | Some f => call (fun u => u) (fun u _ => u) f
  | None => ret tt
  end ;;
  call (fun u => u) (fun u _ => u) composer_render ;;
  requestAnimationFrame.

Definition renderWithComposer : JS (World U) unit :=
  renderWithComposer_render.
End renderWithComposer.

(** A loop survives the frames [ticks] when, after them, its next run is
    requested and the per-frame work has been entered [n] times. *)
Definition ticking {C} (w : World C) (n : nat) : Prop :=
  pending w = 1 /\ calls w = n.

(** ** performance module: [limitFrameRate] *)

(** The closure variable [lastTime], and what [renderFunction] works
    on. *)
Record Limiter (U : Type) : Type := mkLimiter {
  lastTime : num;
  outside : U;
}.

Section limitFrameRate.
Context {U : Type}.
Variable renderFunction : JS U unit.
(** The argument [fps]; [None] when the caller leaves it out. *)
Variable fps_arg : option num.

(** [fps = 30] *)
Definition fps : num := default (Fin 30) fps_arg.

(** [const fpsInterval = 1000 / fps;] *)
Definition fpsInterval : num := div (Fin 1000) fps.

(** [function loop(time) {
       requestAnimationFrame(loop);
       const delta = time - lastTime;
       if (delta > fpsInterval) {
         lastTime = time - (delta % fpsInterval);
         renderFunction();
       }
     }] *)
Definition limitFrameRate_loop (time : num) : JS (World (Limiter U)) unit :=
  requestAnimationFrame ;;
  last <- read (@lastTime U) ;;
  let delta := sub time last in
  if gt delta fpsInterval then
    write (fun c => mkLimiter (sub time (rem delta fpsInterval)) (outside c)) ;;
    call (@outside U) (fun u c => mkLimiter (lastTime c) u) renderFunction
  else ret tt.

(** [let lastTime = 0; ... loop(0);] *)
Definition limitFrameRate : JS (World (Limiter U)) unit :=
  write (fun c => mkLimiter (Fin 0) (outside c)) ;;
  limitFrameRate_loop (Fin 0).

(** The world the limiter is in after construction and the refreshes
    [ticks]. *)
Definition limiter_after (u0 : U) (ticks : list num) : World (Limiter U) :=
  frames limitFrameRate_loop ticks
    (start limitFrameRate (boot (mkLimiter NaN u0))).

(** Whether the run of [loop(time)] from [w] entered [renderFunction]. *)
Definition accepts (time : num) (w : World (Limiter U)) : bool :=
  Nat.ltb (calls w) (calls (run_callback (limitFrameRate_loop time) w)).

(** The verdicts of successive runs of [loop]. *)
Fixpoint verdicts (ticks : list num) (w : World (Limiter U)) : list bool :=
  match ticks with
  | [] => []
  | t :: rest =>
      accepts t w :: verdicts rest (run_callback (limitFrameRate_loop t) w)
  end.
End limitFrameRate.

(** The pacing rule in words: a tick is taken when the time elapsed since
    the last taken timestamp exceeds the interval, and the last taken
    timestamp then moves to the tick's time less the remainder of the
    elapsed time by the interval. *)
Fixpoint pacing (interval last : num) (ticks : list num) : list bool :=
  match ticks with
  | [] => []
  | t :: rest =>
      let elapsed := sub t last in
      if gt elapsed interval
      then true :: pacing interval (sub t (rem elapsed interval)) rest
      else false :: pacing interval last rest
  end.

(** A render function that counts its runs, and one that fails on its
    run number [n] (counting from 0). *)
Definition counting : JS nat unit := modify S.

Definition failing_at (n : nat) : JS nat unit :=
  fun k => (S k, if Nat.eqb k n then Threw "render failed" else Ok tt).

(** ** performance module: [dynamicResolutionScaling] *)

(** The renderer's pixel ratio, with the history of the values given to
    [setPixelRatio] (oldest first). *)
Record Renderer : Type := mkRenderer {
  pixelRatio : num;
  applied : list num;
}.

(** The closure constant [basePixelRatio], [window.devicePixelRatio], the
    reading [stats.getFPS()] currently returns, and the renderer. *)
Record Scaler : Type := mkScaler {
  basePixelRatio : num;
  devicePixelRatio : num;
  stats_fps : num;
  renderer : Renderer;
}.

Definition setPixelRatio (v : num) : JS (World Scaler) unit :=
  write (fun c =>
    mkScaler (basePixelRatio c) (devicePixelRatio c) (stats_fps c)
      (mkRenderer v (applied (renderer c) ++ [v]))).

(** [function adjustResolution() {
       const fps = stats.getFPS();
       if (fps < 30) {
         renderer.setPixelRatio(Math.max(0.5, basePixelRatio - 0.5));
       } else if (fps > 50) {
         renderer.setPixelRatio(Math.min(2, basePixelRatio + 0.5));
       }
     }] *)
Definition adjustResolution : JS (World Scaler) unit :=
  fps <- read stats_fps ;;
  base <- read basePixelRatio ;;
  if lt fps (Fin 30) then
    setPixelRatio (Math_max (Fin (1 # 2)) (sub base (Fin (1 # 2))))
  else if gt fps (Fin 50) then
    setPixelRatio (Math_min (Fin 2) (add base (Fin (1 # 2))))
  else ret tt.

(** [function loop() { requestAnimationFrame(loop); adjustResolution(); }] *)
Definition dynamicResolutionScaling_loop : JS (World Scaler) unit :=
  requestAnimationFrame ;;
  adjustResolution.

(** [const basePixelRatio = window.devicePixelRatio || 1; ... loop();] *)
Definition dynamicResolutionScaling : JS (World Scaler) unit :=
  write (fun c =>
    mkScaler (or_else (devicePixelRatio c) (Fin 1)) (devicePixelRatio c)
      (stats_fps c) (renderer c)) ;;
  dynamicResolutionScaling_loop.

(** What the page does between two refreshes, as far as the scaler can
    see: the device pixel ratio and the fps reading take new values. *)
Definition observe (env : num * num) (w : World Scaler) : World Scaler :=
  mkWorld
    (mkScaler (basePixelRatio (vars w)) (fst env) (snd env) (renderer (vars w)))
    (pending w) (calls w) (reported w).

(** The scaler is set up on a renderer of pixel ratio [p0] when the
    device pixel ratio is [dpr] and the fps reading is [fps0]; then each
    refresh sees the next pair [(device pixel ratio, fps reading)] of
    [env].  The loop does not read the timestamp of a refresh. *)
Definition scaler_after (p0 dpr fps0 : num) (env : list (num * num))
  : World Scaler :=
  fold_left
    (fun w e => frame (fun _ => dynamicResolutionScaling_loop) NaN (observe e w))
    env
    (start dynamicResolutionScaling
       (boot (mkScaler NaN dpr fps0 (mkRenderer p0 [])))).

(** The pixel ratios the scaler has given to the renderer. *)
Definition ratios (w : World Scaler) : list num := applied (renderer (vars w)).

(** The two candidate ratios of [adjustResolution]. *)
Definition lowRatio (base : num) : num :=
  Math_max (Fin (1 # 2)) (sub base (Fin (1 # 2))).

Definition highRatio (base : num) : num :=
  Math_min (Fin 2) (add base (Fin (1 # 2))).

(** What one fps reading makes the scaler apply, from a base ratio. *)
Definition adjustment (base fps : num) : list num :=
  if lt fps (Fin 30) then [lowRatio base]
  else if gt fps (Fin 50) then [highRatio base]
  else [].

(** ** performance module: [manageResourceIntensiveObjects] *)

(** [array.forEach(f)]: an exception of [f] ends the traversal. *)
Fixpoint forEach {S A} (l : list A) (f : A -> JS S unit) : JS S unit :=
  match l with
  | [] => ret tt
  | x :: rest => f x ;; forEach rest f
  end.

Section Three.
(** The types and operations of the 3D library the function calls:
    matrices, frusta, and what an object carries.  They are outside the
    repository and stay abstract. *)
Variables Matrix4 Frustum Pose Geometry Material Volume : Type.

(** A camera: where it is placed ([pose], read by [updateMatrixWorld])
    and its three matrices. *)
Record Camera : Type := mkCamera {
  pose : Pose;
  matrixWorld : Matrix4;
  matrixWorldInverse : Matrix4;
  projectionMatrix : Matrix4;
}.

(** A renderable object. *)
Record Object3D : Type := mkObject3D {
  geometry : Geometry;
  material : Material;
  placement : Matrix4;
  visible : bool;
}.

(** [camera.updateMatrixWorld()], [m.getInverse(a)],
    [m.multiplyMatrices(a, b)] and [frustum.setFromProjectionMatrix(m)];
    the last three overwrite their receiver with the value given
    here. *)
Variable updateMatrixWorld : Camera -> Camera.
Variable getInverse : Matrix4 -> Matrix4.
Variable multiplyMatrices : Matrix4 -> Matrix4 -> Matrix4.
Variable setFromProjectionMatrix : Matrix4 -> Frustum.

(** The bounding volume of a geometry placed in the world, and the
    intersection test of a frustum with a volume. *)
Variable boundingVolume : Geometry -> Matrix4 -> Volume.
Variable intersectsVolume : Frustum -> Volume -> bool.

(** Modelled from the spec: [Frustum.intersectsObject] belongs to the 3D
    library, which is not in the repository.  The spec says that the
    test is the frustum-object intersection "using the object's
    bounding volume"; it reads the object's geometry and placement
    and changes nothing. *)
Definition intersectsObject (f : Frustum) (object : Object3D) : bool :=
  intersectsVolume f (boundingVolume (geometry object) (placement object)).

(** The objects live in a heap; the array [objects] holds references,
    possibly several to one object.  [frustum] and
    [cameraViewProjectionMatrix] are the two buffers the function
    allocates once. *)
Record Culler : Type := mkCuller {
  camera : Camera;
  frustum : Frustum;
  cameraViewProjectionMatrix : Matrix4;
  heap : gmap positive Object3D;
  objects : list positive;
}.

Definition set_camera (f : Camera -> Camera) (c : Culler) : Culler :=
  mkCuller (f (camera c)) (frustum c) (cameraViewProjectionMatrix c)
    (heap c) (objects c).

Definition set_frustum (f : Frustum) (c : Culler) : Culler :=
  mkCuller (camera c) f (cameraViewProjectionMatrix c) (heap c) (objects c).

Definition set_cameraViewProjectionMatrix (m : Matrix4) (c : Culler)
  : Culler :=
  mkCuller (camera c) (frustum c) m (heap c) (objects c).

(** [object.visible = v] *)
Definition set_visible (v : bool) (object : Object3D) : Object3D :=
  mkObject3D (geometry object) (material object) (placement object) v.

Definition assign_visible (l : positive) (v : bool) (c : Culler) : Culler :=
  mkCuller (camera c) (frustum c) (cameraViewProjectionMatrix c)
    (alter (set_visible v) l (heap c)) (objects c).

(** [camera.matrixWorldInverse = m] *)
Definition set_matrixWorldInverse (m : Matrix4) (cam : Camera) : Camera :=
  mkCamera (pose cam) (matrixWorld cam) m (projectionMatrix cam).

(** [object => { if (!frustum.intersectsObject(object)) {
       object.visible = false; } else { object.visible = true; } }] *)
Definition cull (l : positive) : JS (World Culler) unit :=
  f <- read frustum ;;
  o <- read (fun c => heap c !! l) ;;
  match o with
  | None => ret tt
  | Some object =>
      if negb (intersectsObject f object) then write (assign_visible l false)
      else write (assign_visible l true)
  end.

(** [function update() {
       camera.updateMatrixWorld();
       camera.matrixWorldInverse.getInverse(camera.matrixWorld);
       cameraViewProjectionMatrix.multiplyMatrices(
         camera.projectionMatrix, camera.matrixWorldInverse);
       frustum.setFromProjectionMatrix(cameraViewProjectionMatrix);
       objects.forEach(...);
     }] *)
Definition update : JS (World Culler) unit :=
  write (set_camera updateMatrixWorld) ;;
  cam <- read camera ;;
  write (set_camera (set_matrixWorldInverse (getInverse (matrixWorld cam)))) ;;
  cam <- read camera ;;
  write (set_cameraViewProjectionMatrix
           (multiplyMatrices (projectionMatrix cam) (matrixWorldInverse cam))) ;;
  vp <- read cameraViewProjectionMatrix ;;
  write (set_frustum (setFromProjectionMatrix vp)) ;;
  objs <- read objects ;;
  forEach objs cull.

(** [function loop() { requestAnimationFrame(loop); update(); }] *)
Definition manageResourceIntensiveObjects_loop : JS (World Culler) unit :=
  requestAnimationFrame ;;
  update.

Definition manageResourceIntensiveObjects : JS (World Culler) unit :=
  manageResourceIntensiveObjects_loop.

(** The frustum of a camera's current view and projection, as [update]
    derives it. *)
Definition viewFrustum (cam : Camera) : Frustum :=
  let cam' := updateMatrixWorld cam in
  setFromProjectionMatrix
    (multiplyMatrices (projectionMatrix cam') (getInverse (matrixWorld cam'))).

(** An object with its flag set by the test against [f]. *)
Definition culled (f : Frustum) (object : Object3D) : Object3D :=
  set_visible (intersectsObject f object) object.

(** Two objects of the same shape, at the same place. *)
Definition unmoved (o o' : Object3D) : Prop :=
  geometry o' = geometry o /\ placement o' = placement o.

(** The visibility flag of the object at [l]. *)
Definition visibleAt (l : positive) (w : World Culler) : option bool :=
  visible <$> heap (vars w) !! l.
End Three.

(** A one-dimensional instance of the library, to run the culler on: a
    matrix is an offset on a line, a frustum the centre of a window of
    half-width 10, a geometry a radius, a bounding volume a segment. *)
Module Line.
Definition updateMatrixWorld (cam : Camera Z unit) : Camera Z unit := cam.
Definition getInverse (m : Z) : Z := (- m)%Z.
Definition multiplyMatrices (a b : Z) : Z := (a + b)%Z.
Definition setFromProjectionMatrix (m : Z) : Z := (- m)%Z.
Definition boundingVolume (radius centre : Z) : Z * Z :=
  ((centre - radius)%Z, (centre + radius)%Z).
Definition intersectsVolume (f : Z) (v : Z * Z) : bool :=
  Z.leb (fst v) (f + 10) && Z.leb (f - 10) (snd v).

Definition update : JS (World (Culler Z Z unit Z string)) unit :=
  update updateMatrixWorld getInverse multiplyMatrices
    setFromProjectionMatrix boundingVolume intersectsVolume.

(** A camera at 0; a near object (hidden so far) referred to twice by the
    array, a far one (shown so far), and an object the array does not
    hold. *)
Definition near : Object3D Z Z string := mkObject3D 1%Z "red" 5%Z false.
Definition far : Object3D Z Z string := mkObject3D 1%Z "blue" 50%Z true.
Definition spare : Object3D Z Z string := mkObject3D 2%Z "grey" 70%Z true.

Definition world : World (Culler Z Z unit Z string) :=
  boot (mkCuller (mkCamera tt 0%Z 7%Z 0%Z) 99%Z 99%Z
          (<[1%positive := near]> (<[2%positive := far]>
             (<[3%positive := spare]> ∅)))
          [1%positive; 2%positive; 1%positive]).
End Line.

(** ** Further definitions *)

(** A finite timestamp not later than [T]. *)
Definition upto (T : Q) (t : num) : Prop :=
  match t with Fin q => (q <= T)%Q | _ => False end.

(** A whole number of milliseconds, or of frames per second, as a
    JavaScript number. *)
Definition ms (z : Z) : num := Fin (inject_Z z).

(** The whole numbers from 0 to 2^53: doubles hold them, and the
    differences and remainders of any two of them, exactly. *)
Definition exact_ms (z : Z) : Prop := (0 <= z <= 2 ^ 53)%Z.

(** The budget invariant of the limiter: the runs of [renderFunction] so
    far, one interval [y] each, fit below [lastTime], which is not later
    than [T]. *)
Definition within_budget {U} (T y : Q) (w : World (Limiter U)) : Prop :=
  exists L, lastTime (vars w) = Fin L /\
            (inject_Z (Z.of_nat (calls w)) * y <= L)%Q /\ (L <= T)%Q.

(** An fps reading inside the band in which the scaler does nothing:
    from 30 to 50 inclusive, or not a number. *)
Definition in_band (fps : num) : Prop :=
  match fps with
  | Fin q => (30 <= q)%Q /\ (q <= 50)%Q
  | NaN => True
  | _ => False
  end.

(** The culler's example world with the array reordered and without the
    repetition. *)
Definition line_world_reordered : World (Culler Z Z unit Z string) :=
  mkWorld
    (mkCuller (camera (vars Line.world)) (frustum (vars Line.world))
       (cameraViewProjectionMatrix (vars Line.world)) (heap (vars Line.world))
       [2%positive; 1%positive])
    0 0 [].

(** ** animations module: [animate] *)

Section animate.
Context {U : Type}.
(** [TWEEN.update], and the optional [customAnimations]. *)
Variable TWEEN_update : JS U unit.
Variable customAnimations : option (num -> JS U unit).

(** [function loop(time) {
       if (customAnimations) { customAnimations(time); }
       TWEEN.update();
       requestAnimationFrame(loop);
     }] *)
Definition animate_loop (time : num) : JS (World U) unit :=
  match customAnimations with
  | Some f => call (fun u => u) (fun u _ => u) (f time)
  | None => ret tt
  end ;;
  call (fun u => u) (fun u _ => u) TWEEN_update ;;
  requestAnimationFrame.

(** [requestAnimationFrame(loop);] *)
Definition animate : JS (World U) unit := requestAnimationFrame.
End animate.

(** A callback that records the timestamps it is given, and one that
    fails when given the timestamp [bad]. *)
Definition record_time (time : num) : JS (list num) unit :=
  modify (fun seen => seen ++ [time]).

Definition record_time_failing (bad : Q) (time : num) : JS (list num) unit :=
  fun seen =>
    (seen ++ [time],
     match time with
     | Fin q => if Qeq_bool q bad then Threw "animation failed" else Ok tt
     | _ => Ok tt
     end).

(** What the two calls of one frame of [animate] make of the state when
    neither throws: [customAnimations(time)], then [TWEEN.update()]. *)
Definition animate_step {U} (TWEEN_update : JS U unit)
  (customAnimations : num -> JS U unit) (u : U) (time : num) : U :=
  fst (TWEEN_update (fst (customAnimations time u))).

(** The work of one frame of [renderWithComposer], as a computation on
    what the two callbacks share: [customRender()] when given, then
    [composer.render()]. *)
Definition composer_work {U} (composer_render : JS U unit)
  (customRender : option (JS U unit)) : JS U unit :=
  match customRender with
  | Some f => f
  | None => ret tt
  end ;;
  composer_render.

(** ** scene module: [initScene], [removeObjectFromScene], [clearScene] *)

(** The value of a property that may be [undefined]: its truthiness, for
    a number. *)
Definition truthy_number (v : option num) : bool :=
  match v with
  | Some n => truthy n
  | None => false
  end.

Section Scene.
(** Textures, geometries and materials of the 3D library. *)
Variables Texture GeometryRef MaterialRef : Type.

(** [options] of [initScene]; a missing property is [None]. *)
Record SceneOptions : Type := mkSceneOptions {
  backgroundColor : option num;
  backgroundTexture : option Texture;
  environmentMap : option Texture;
}.

(** [scene.background]: a colour built from a number, or a texture. *)
Inductive Background : Type :=
| ColorOf (hex : num)
| TextureOf (t : Texture).

(** [object.material]: absent, one material, or an array of them. *)
Inductive MaterialSlot : Type :=
| NoMaterial
| OneMaterial (m : MaterialRef)
| ManyMaterials (ms : list MaterialRef).

(** A child of the scene: [object.geometry] (absent on lights, groups
    and cameras) and [object.material]. *)
Record SceneObject : Type := mkSceneObject {
  object_geometry : option GeometryRef;
  object_material : MaterialSlot;
}.

(** A call of [dispose]. *)
Inductive Disposal : Type :=
| DisposeGeometry (g : GeometryRef)
| DisposeMaterial (m : MaterialRef).

(** The scene, and the [dispose] calls made so far, oldest first. *)
Record Scene : Type := mkScene {
  background : option Background;
  environment : option Texture;
  children : list SceneObject;
  disposals : list Disposal;
}.

(** [function initScene(options = {}) {
       const scene = new THREE.Scene();
       if (options.backgroundColor) {
         scene.background = new THREE.Color(options.backgroundColor);
       } else if (options.backgroundTexture) {
         scene.background = options.backgroundTexture;
       } else if (options.environmentMap) {
         scene.environment = options.environmentMap;
       }
       return scene;
     }] *)
Definition initScene (options : SceneOptions) : Scene :=
  let scene := mkScene None None [] [] in
  if truthy_number (backgroundColor options) then
    match backgroundColor options with
    | Some hex =>
        mkScene (Some (ColorOf hex)) (environment scene) (children scene)
          (disposals scene)
    | None => scene
    end
  else
    match backgroundTexture options with
    | Some t =>
        mkScene (Some (TextureOf t)) (environment scene) (children scene)
          (disposals scene)
    | None =>
        match environmentMap options with
        | Some t =>
            mkScene (background scene) (Some t) (children scene)
              (disposals scene)
        | None => scene
        end
    end.

(** [scene.remove(object)], a method of the 3D library: what it makes of
    the list of children. *)
Variable Object3D_remove : SceneObject -> list SceneObject -> list SceneObject.

Definition scene_remove (object : SceneObject) : JS Scene unit :=
  modify (fun s =>
    mkScene (background s) (environment s)
      (Object3D_remove object (children s)) (disposals s)).

Definition dispose (d : Disposal) : JS Scene unit :=
  modify (fun s =>
    mkScene (background s) (environment s) (children s) (disposals s ++ [d])).

(** [function removeObjectFromScene(scene, object) {
       scene.remove(object);
       object.geometry.dispose();
       if (object.material) {
         if (Array.isArray(object.material)) {
           object.material.forEach(mat => mat.dispose());
         } else {
           object.material.dispose();
         }
       }
     }]
    Reading [dispose] on an absent geometry is a [TypeError]. *)
Definition removeObjectFromScene (object : SceneObject) : JS Scene unit :=
  scene_remove object ;;
  match object_geometry object with
  | Some g => dispose (DisposeGeometry g)
  | None => throw "TypeError"
  end ;;
  match object_material object with
  | NoMaterial => ret tt
  | ManyMaterials ms => forEach ms (fun mat => dispose (DisposeMaterial mat))
  | OneMaterial m => dispose (DisposeMaterial m)
  end.

(** [function clearScene(scene) {
       while (scene.children.length > 0) {
         const object = scene.children[0];
         removeObjectFromScene(scene, object);
       }
     }]
    The loop is unrolled [fuel] times; [None] when that is not enough. *)
Fixpoint clearScene (fuel : nat) (s : Scene) : option (Scene * result unit) :=
  match fuel with
  | O => None
  | S fuel' =>
      match children s with
      | [] => Some (s, Ok tt)
      | object :: _ =>
          match removeObjectFromScene object s with
          | (s', Ok _) => clearScene fuel' s'
          | (s', Threw e) => Some (s', Threw e)
          end
      end
  end.

(** The [dispose] calls [removeObjectFromScene] makes for an object that
    has a geometry. *)
Definition disposals_of (object : SceneObject) : list Disposal :=
  match object_geometry object with
  | Some g => [DisposeGeometry g]
  | None => []
  end ++
  match object_material object with
  | NoMaterial => []
  | OneMaterial m => [DisposeMaterial m]
  | ManyMaterials ms => map DisposeMaterial ms
  end.

Definition has_geometry (object : SceneObject) : Prop :=
  is_Some (object_geometry object).
End Scene.
Arguments has_geometry {GeometryRef MaterialRef} object.
Arguments disposals_of {GeometryRef MaterialRef} object.

(** The library's [remove] on a list of children: the first occurrence
    goes. *)
Fixpoint remove_first {A} (eqb : A -> A -> bool) (x : A) (l : list A)
  : list A :=
  match l with
  | [] => []
  | y :: rest => if eqb x y then rest else y :: remove_first eqb x rest
  end.

(** Example children, identified by the number of their geometry: a mesh
    with one material, a mesh with two, a light, and a line. *)
Module Stage.
Definition object_eqb (a b : SceneObject nat nat) : bool :=
  match object_geometry a, object_geometry b with
  | Some g, Some h => Nat.eqb g h
  | None, None => true
  | _, _ => false
  end.
Definition remove := remove_first object_eqb.
Definition cube : SceneObject nat nat := mkSceneObject (Some 1%nat) (OneMaterial 10%nat).
Definition ball : SceneObject nat nat :=
  mkSceneObject (Some 2%nat) (ManyMaterials [20%nat; 21%nat]).
Definition light : SceneObject nat nat := mkSceneObject None (NoMaterial nat).
Definition line : SceneObject nat nat := mkSceneObject (Some 3%nat) (NoMaterial nat).
Definition scene_of (l : list (SceneObject nat nat)) : Scene unit nat nat :=
  mkScene None None l [].
End Stage.

(** ** More arithmetic on numbers *)

(** [a * b] *)
Definition mul (a b : num) : num :=
  match a, b with
  | NaN, _ | _, NaN => NaN
  | Fin x, Fin y => Fin (Qred (x * y))
  | Fin x, PInf | PInf, Fin x =>
      if Qeq_bool x 0 then NaN else if Qltb 0 x then PInf else NInf
  | Fin x, NInf | NInf, Fin x =>
      if Qeq_bool x 0 then NaN else if Qltb 0 x then NInf else PInf
  | PInf, PInf | NInf, NInf => PInf
  | PInf, NInf | NInf, PInf => NInf
  end.

(** [- a] *)
Definition neg (a : num) : num :=
  match a with
  | Fin x => Fin (Qred (- x))
  | PInf => NInf
  | NInf => PInf
  | NaN => NaN
  end.

(** [Math.floor(a)] *)
Definition Math_floor (a : num) : num :=
  match a with
  | Fin x => Fin (inject_Z (Qfloor x))
  | _ => a
  end.

(** ** event listeners module: [debounceWindowResize] *)

(** The closure variable [resizeTimeout] ([None] while [undefined]), the
    host's active timers that this listener created, oldest first, as
    pairs of a timer's id and the time it is due, the id the host will
    give to the next timer, and what [callback] works on.  Times are in
    whole milliseconds, as the host counts timer delays. *)
Record Debouncer (U : Type) : Type := mkDebouncer {
  resizeTimeout : option nat;
  timers : list (nat * nat);
  next_timer : nat;
  page : U;
}.

Section debounceWindowResize.
Context {U : Type}.
Variable callback : JS U unit.
(** The argument [delay]; [None] when the caller leaves it out. *)
Variable delay_arg : option nat.

(** [delay = 200] *)
Definition delay : nat := default 200%nat delay_arg.

(** [clearTimeout(id)]: nothing happens for [undefined] or for an id that
    is not active. *)
Definition clearTimeout (id : option nat) : JS (World (Debouncer U)) unit :=
  write (fun c =>
    mkDebouncer (resizeTimeout c)
      (match id with
       | Some i => List.filter (fun t => negb (Nat.eqb (fst t) i)) (timers c)
       | None => timers c
       end)
      (next_timer c) (page c)).

(** [setTimeout(handler, ms)] at time [now]: the new timer's id. *)
Definition setTimeout (now ms : nat) : JS (World (Debouncer U)) nat :=
  id <- read (@next_timer U) ;;
  write (fun c =>
    mkDebouncer (resizeTimeout c) (timers c ++ [(id, (now + ms)%nat)])
      (S id) (page c)) ;;
  ret id.

(** [() => { clearTimeout(resizeTimeout);
             resizeTimeout = setTimeout(() => { callback(); }, delay); }] *)
Definition on_resize (now : nat) : JS (World (Debouncer U)) unit :=
  old <- read (@resizeTimeout U) ;;
  clearTimeout old ;;
  id <- setTimeout now delay ;;
  write (fun c => mkDebouncer (Some id) (timers c) (next_timer c) (page c)).

(** [() => { callback(); }] *)
Definition on_timeout : JS (World (Debouncer U)) unit :=
  call (@page U)
    (fun u c => mkDebouncer (resizeTimeout c) (timers c) (next_timer c) u)
    callback.

(** The host at time [now]: the timers that are due leave the list and
    their handlers run. *)
Definition run_timers (now : nat) (w : World (Debouncer U))
  : World (Debouncer U) :=
  let c := vars w in
  let due := List.filter (fun t => Nat.leb (snd t) now) (timers c) in
  let rest := List.filter (fun t => negb (Nat.leb (snd t) now)) (timers c) in
  Nat.iter (length due) (run_callback on_timeout)
    (mkWorld (mkDebouncer (resizeTimeout c) rest (next_timer c) (page c))
       (pending w) (calls w) (reported w)).

(** A resize event at time [now], after the timers due by then. *)
Definition resize_event (now : nat) (w : World (Debouncer U))
  : World (Debouncer U) :=
  run_callback (on_resize now) (run_timers now w).

(** [let resizeTimeout; window.addEventListener('resize', ...);]: the
    variable starts [undefined]; the listener is [on_resize]. *)
Definition debounceWindowResize : JS (World (Debouncer U)) unit :=
  write (fun c => mkDebouncer None (timers c) (next_timer c) (page c)).

(** After [debounceWindowResize(callback, delay)], the resize events at
    the times [resizes], in the order the host delivers them. *)
Definition resized (u0 : U) (resizes : list nat) : World (Debouncer U) :=
  fold_left (fun w t => resize_event t w) resizes
    (start debounceWindowResize (boot (mkDebouncer None [] 0 u0))).

(** The same, and then nothing until the time [until]. *)
Definition debounced (u0 : U) (resizes : list nat) (until : nat)
  : World (Debouncer U) :=
  run_timers until (resized u0 resizes).

(** The resize events after which the callback comes to run: those not
    followed by another event within [delay]. *)
Fixpoint settled (resizes : list nat) (until : nat) : nat :=
  match resizes with
  | [] => 0
  | t :: rest =>
      ((if Nat.leb (t + delay) (hd until rest) then 1 else 0)
       + settled rest until)%nat
  end.

(** A burst: each resize follows the previous one by less than
    [delay]. *)
Fixpoint burst (resizes : list nat) : Prop :=
  match resizes with
  | [] => True
  | t :: rest =>
      match rest with
      | [] => True
      | t' :: _ => (t' < t + delay)%nat
      end /\ burst rest
  end.
End debounceWindowResize.

(** The debouncer's invariant: either no timer is active, or one is and
    [resizeTimeout] holds its id. *)
Definition one_timer {U} (w : World (Debouncer U)) : Prop :=
  timers (vars w) = [] \/
  exists id due, timers (vars w) = [(id, due)] /\
                 resizeTimeout (vars w) = Some id.

(** ** event listeners module: [handleKeyboardInput] *)

(** An entry of [actions]: the optional handlers [down] and [up]. *)
Record KeyAction (U : Type) : Type := mkKeyAction {
  down : option (JS U unit);
  up : option (JS U unit);
}.

Section handleKeyboardInput.
Context {U : Type}.
(** [String.prototype.toLowerCase]. *)
Variable toLowerCase : string -> string.
(** The object [actions], as a map from property names. *)
Variable actions : gmap string (KeyAction U).

(** [(event) => {
       const action = actions[event.key.toLowerCase()];
       if (action && action.down) { action.down(); }
     }] *)
Definition on_keydown (key : string) : JS (World U) unit :=
  match actions !! toLowerCase key with
  | Some action =>
      match down action with
      | Some f => call (fun u => u) (fun u _ => u) f
      | None => ret tt
      end
  | None => ret tt
  end.

(** The same with [action.up]. *)
Definition on_keyup (key : string) : JS (World U) unit :=
  match actions !! toLowerCase key with
  | Some action =>
      match up action with
      | Some f => call (fun u => u) (fun u _ => u) f
      | None => ret tt
      end
  | None => ret tt
  end.
End handleKeyboardInput.

(** Lower-casing of the letters A to Z, for examples. *)
Definition lower_ascii (c : Ascii.ascii) : Ascii.ascii :=
  let n := Ascii.nat_of_ascii c in
  if Nat.leb 65 n && Nat.leb n 90 then Ascii.ascii_of_nat (n + 32) else c.

Fixpoint lower (s : string) : string :=
  match s with
  | EmptyString => EmptyString
  | String c rest => String (lower_ascii c) (lower rest)
  end.

(** ** event listeners module: [handleMouseInput], [handleTouchInput] *)

(** The coordinates the four listeners compute from a pointer position:
    [x = (clientX / window.innerWidth) * 2 - 1] and
    [y = -(clientY / window.innerHeight) * 2 + 1]. *)
Definition pointer_x (clientX innerWidth : num) : num :=
  sub (mul (div clientX innerWidth) (Fin 2)) (Fin 1).

Definition pointer_y (clientY innerHeight : num) : num :=
  add (mul (neg (div clientY innerHeight)) (Fin 2)) (Fin 1).

(** The window's size, and what the callbacks work on. *)
Record Viewport (U : Type) : Type := mkViewport {
  innerWidth : num;
  innerHeight : num;
  behind : U;
}.

Section handlePointerInput.
Context {U : Type}.
(** [onMove] and [onTap] (or [onClick]), given the vector built. *)
Variable onMove : num * num -> JS U unit.
Variable onTap : num * num -> JS U unit.

Definition with_vector (f : num * num -> JS U unit) (clientX clientY : num)
  : JS (World (Viewport U)) unit :=
  width <- read (@innerWidth U) ;;
  height <- read (@innerHeight U) ;;
  call (@behind U) (fun u c => mkViewport (innerWidth c) (innerHeight c) u)
    (f (pointer_x clientX width, pointer_y clientY height)).

(** [(event) => { const mouse = new THREE.Vector2();
                  mouse.x = ...; mouse.y = ...; onMove(mouse); }] *)
Definition on_mousemove (clientX clientY : num) : JS (World (Viewport U)) unit :=
  with_vector onMove clientX clientY.

(** The same with [onClick], on [click]. *)
Definition on_click (clientX clientY : num) : JS (World (Viewport U)) unit :=
  with_vector onTap clientX clientY.

(** [(event) => { if (event.touches.length > 0) {
                    const touch = event.touches[0]; ...; onMove(touchPosition);
                  } }] *)
Definition on_touchmove (touches : list (num * num))
  : JS (World (Viewport U)) unit :=
  match touches with
  | [] => ret tt
  | touch :: _ => with_vector onMove (fst touch) (snd touch)
  end.

(** The same with [onTap], on [touchstart]. *)
Definition on_touchstart (touches : list (num * num))
  : JS (World (Viewport U)) unit :=
  match touches with
  | [] => ret tt
  | touch :: _ => with_vector onTap (fst touch) (snd touch)
  end.
End handlePointerInput.

(** ** The three resize handlers: [onWindowResize] of the camera module,
    [onWindowResize] of the renderer module, [handleWindowResize] *)

Module Resize.
Section Resize.
(** Projection matrices of the 3D library. *)
Variable Projection : Type.

(** The camera as the handlers see it. *)
Record ViewCamera : Type := mkViewCamera {
  isPerspectiveCamera : bool;
  isOrthographicCamera : bool;
  aspect : num;
  left : num;
  right : num;
  top : num;
  bottom : num;
  projection : Projection;
}.

(** The window's size, the camera, and the size given to the renderer
    ([None] before the first [setSize]). *)
Record Page : Type := mkPage {
  innerWidth : num;
  innerHeight : num;
  camera : ViewCamera;
  rendererSize : option (num * num);
}.

(** [camera.updateProjectionMatrix()]: the library recomputes the matrix
    from the camera's parameters and stores it. *)
Variable projectionOf : ViewCamera -> Projection.

Definition updateProjectionMatrix (cam : ViewCamera) : ViewCamera :=
  mkViewCamera (isPerspectiveCamera cam) (isOrthographicCamera cam)
    (aspect cam) (left cam) (right cam) (top cam) (bottom cam)
    (projectionOf cam).

(** [renderer.setSize(width, height)] *)
Definition setSize (width height : num) (p : Page) : Page :=
  mkPage (innerWidth p) (innerHeight p) (camera p) (Some (width, height)).

(** [if (camera.isPerspectiveCamera) {
       camera.aspect = width / height;
     } else if (camera.isOrthographicCamera) {
       const aspect = width / height;
       camera.left = -5 * aspect;  camera.right = 5 * aspect;
       camera.top = 5;             camera.bottom = -5;
     }] *)
Definition fit (width height : num) (cam : ViewCamera) : ViewCamera :=
  if isPerspectiveCamera cam then
    mkViewCamera (isPerspectiveCamera cam) (isOrthographicCamera cam)
      (div width height) (left cam) (right cam) (top cam) (bottom cam)
      (projection cam)
  else if isOrthographicCamera cam then
    let aspect' := div width height in
    mkViewCamera (isPerspectiveCamera cam) (isOrthographicCamera cam)
      (aspect cam) (mul (Fin (-5)) aspect') (mul (Fin 5) aspect')
      (Fin 5) (Fin (-5)) (projection cam)
  else cam.

Definition set_camera (f : ViewCamera -> ViewCamera) (p : Page) : Page :=
  mkPage (innerWidth p) (innerHeight p) (f (camera p)) (rendererSize p).

(** The listener of [onWindowResize(camera, renderer)] (camera module):
    the camera is fitted, its matrix updated, then the renderer
    resized. *)
Definition camera_onWindowResize (p : Page) : Page :=
  let width := innerWidth p in
  let height := innerHeight p in
  setSize width height
    (set_camera updateProjectionMatrix (set_camera (fit width height) p)).

(** The listener of [onWindowResize(renderer, camera)] (renderer module):
    the renderer is resized first. *)
Definition renderer_onWindowResize (p : Page) : Page :=
  let width := innerWidth p in
  let height := innerHeight p in
  set_camera updateProjectionMatrix
    (set_camera (fit width height) (setSize width height p)).

(** The listener of [handleWindowResize(camera, renderer)] (event
    listeners module): the text of the camera module's. *)
Definition handleWindowResize (p : Page) : Page :=
  let width := innerWidth p in
  let height := innerHeight p in
  setSize width height
    (set_camera updateProjectionMatrix (set_camera (fit width height) p)).
End Resize.
End Resize.

(** ** camera module: [initCameraRig], [lockCameraToObject] *)

Section initCameraRig.
(** Cameras of the 3D library. *)
Variable Cam : Type.
Variables perspectiveCamera orthographicCamera : Cam.

(** The methods of the rig that write. *)
Inductive RigCall : Type :=
| switchToPerspective
| switchToOrthographic.

(** [let currentCamera = perspectiveCamera;] is the rig's only state. *)
Definition initCameraRig : Cam := perspectiveCamera.

(** [() => { currentCamera = perspectiveCamera; }] and
    [() => { currentCamera = orthographicCamera; }] *)
Definition rig_call (currentCamera : Cam) (c : RigCall) : Cam :=
  match c with
  | switchToPerspective => perspectiveCamera
  | switchToOrthographic => orthographicCamera
  end.

(** [getCurrentCamera: () => currentCamera], after the calls [cs]. *)
Definition getCurrentCamera (cs : list RigCall) : Cam :=
  fold_left rig_call cs initCameraRig.
End initCameraRig.

(** The position and quaternion of the camera and of the object it is
    locked to. *)
Record Follow (V Qn : Type) : Type := mkFollow {
  camera_position : V;
  camera_quaternion : Qn;
  object_position : V;
  object_quaternion : Qn;
}.

Section lockCameraToObject.
Variables V Qn : Type.

(** [const updateCamera = () => {
       camera.position.copy(object.position);
       camera.quaternion.copy(object.quaternion);
     };] *)
Definition updateCamera : JS (World (Follow V Qn)) unit :=
  write (fun c =>
    mkFollow (object_position c) (camera_quaternion c) (object_position c)
      (object_quaternion c)) ;;
  write (fun c =>
    mkFollow (camera_position c) (object_quaternion c) (object_position c)
      (object_quaternion c)).

(** [const renderLoop = () => {
       updateCamera(); requestAnimationFrame(renderLoop); };] *)
Definition lockCameraToObject_renderLoop : JS (World (Follow V Qn)) unit :=
  updateCamera ;;
  requestAnimationFrame.

Definition lockCameraToObject : JS (World (Follow V Qn)) unit :=
  lockCameraToObject_renderLoop.

(** What the rest of the page does to the poses before a refresh, then
    the refresh. *)
Definition follow_frame (w : World (Follow V Qn))
  (moves : Follow V Qn -> Follow V Qn) : World (Follow V Qn) :=
  frame (fun _ => lockCameraToObject_renderLoop) NaN
    (mkWorld (moves (vars w)) (pending w) (calls w) (reported w)).
End lockCameraToObject.

(** ** controls module: [initCustomKeyboardControls] *)

(** [const keys = { forward: false, ... };] *)
Record Keys : Type := mkKeys {
  forward : bool;
  backward : bool;
  key_left : bool;
  key_right : bool;
  key_up : bool;
  key_down : bool;
}.

Inductive KeyEvent : Type :=
| KeyDown (key : string)
| KeyUp (key : string).

(** The two [switch (event.key)] statements: the case of [key] gets the
    value [v]; any other key changes nothing. *)
Definition set_key (v : bool) (key : string) (keys : Keys) : Keys :=
  if String.eqb key "w" then
    mkKeys v (backward keys) (key_left keys) (key_right keys) (key_up keys)
      (key_down keys)
  else if String.eqb key "s" then
    mkKeys (forward keys) v (key_left keys) (key_right keys) (key_up keys)
      (key_down keys)
  else if String.eqb key "a" then
    mkKeys (forward keys) (backward keys) v (key_right keys) (key_up keys)
      (key_down keys)
  else if String.eqb key "d" then
    mkKeys (forward keys) (backward keys) (key_left keys) v (key_up keys)
      (key_down keys)
  else if String.eqb key "q" then
    mkKeys (forward keys) (backward keys) (key_left keys) (key_right keys) v
      (key_down keys)
  else if String.eqb key "e" then
    mkKeys (forward keys) (backward keys) (key_left keys) (key_right keys)
      (key_up keys) v
  else keys.

Definition key_event (keys : Keys) (e : KeyEvent) : Keys :=
  match e with
  | KeyDown key => set_key true key keys
  | KeyUp key => set_key false key keys
  end.

(** [keys] after the events, from all [false]. *)
Definition keys_after (events : list KeyEvent) : Keys :=
  fold_left key_event events (mkKeys false false false false false false).

(** Whether the latest event that carries exactly [letter] is a
    [keydown]. *)
Definition held (letter : string) (events : list KeyEvent) : bool :=
  fold_left
    (fun b e =>
       match e with
       | KeyDown key => if String.eqb key letter then true else b
       | KeyUp key => if String.eqb key letter then false else b
       end)
    events false.

(** ** materials module: [standardMaterial], [envMappedMaterial] *)

(** [options.x || d] for a numeric option that may be missing. *)
Definition option_or (v : option num) (d : num) : num :=
  match v with
  | Some n => or_else n d
  | None => d
  end.

Section Materials.
(** Textures of the 3D library; [None] stands for [null] and for a
    missing option. *)
Variable Texture : Type.

(** The options the two functions read. *)
Record MaterialOptions : Type := mkMaterialOptions {
  opt_color : option num;
  opt_metalness : option num;
  opt_roughness : option num;
  opt_emissive : option num;
  opt_map : option Texture;
  opt_normalMap : option Texture;
  opt_roughnessMap : option Texture;
  opt_metalnessMap : option Texture;
  opt_envMapIntensity : option num;
}.

(** The parameters handed to [new THREE.MeshStandardMaterial]; [map_]
    is the property [map]. *)
Record StandardParams : Type := mkStandardParams {
  color : num;
  metalness : num;
  roughness : num;
  emissive : num;
  map_ : option Texture;
  normalMap : option Texture;
  roughnessMap : option Texture;
  metalnessMap : option Texture;
}.

Record EnvMappedParams : Type := mkEnvMappedParams {
  env_color : num;
  env_metalness : num;
  env_roughness : num;
  envMap : option Texture;
  envMapIntensity : num;
}.

(** [color: options.color || 0xffffff, metalness: options.metalness || 0.5,
     roughness: options.roughness || 0.5,
     emissive: options.emissive || 0x000000,
     map: options.map || null, normalMap: options.normalMap || null,
     roughnessMap: options.roughnessMap || null,
     metalnessMap: options.metalnessMap || null] *)
Definition standardMaterial (options : MaterialOptions) : StandardParams :=
  mkStandardParams
    (option_or (opt_color options) (Fin 16777215))
    (option_or (opt_metalness options) (Fin (1 # 2)))
    (option_or (opt_roughness options) (Fin (1 # 2)))
    (option_or (opt_emissive options) (Fin 0))
    (opt_map options) (opt_normalMap options) (opt_roughnessMap options)
    (opt_metalnessMap options).

(** [color: options.color || 0xffffff, metalness: options.metalness || 1.0,
     roughness: options.roughness || 0.1, envMap: environmentMap,
     envMapIntensity: options.envMapIntensity || 1.0] *)
Definition envMappedMaterial (environmentMap : option Texture)
  (options : MaterialOptions) : EnvMappedParams :=
  mkEnvMappedParams
    (option_or (opt_color options) (Fin 16777215))
    (option_or (opt_metalness options) (Fin 1))
    (option_or (opt_roughness options) (Fin (1 # 10)))
    environmentMap
    (option_or (opt_envMapIntensity options) (Fin 1)).
End Materials.

(** ** utilities module: [getRandomColor] *)

(** [Math.floor(Math.random() * 0xffffff)], for the value [random] that
    [Math.random()] returns. *)
Definition getRandomColor (random : num) : num :=
  Math_floor (mul random (Fin 16777215)).

(** ** animations module: [animateMaterialUniforms] *)

Section animateMaterialUniforms.
(** Values of uniforms. *)
Variable Value : Type.

(** [for (const uniform in uniforms) {
       if (material.uniforms[uniform]) {
         material.uniforms[uniform].value = uniforms[uniform](speed, time);
       }
     }]
    [material.uniforms] maps a name to the value of its entry; the
    functions of [uniforms] are taken to return without effect. *)
Definition animateMaterialUniforms (material_uniforms : gmap string Value)
  (uniforms : gmap string (num -> num -> Value)) (speed time : num)
  : gmap string Value :=
  map_fold
    (fun uniform f acc =>
       match acc !! uniform with
       | Some _ => <[uniform := f speed time]> acc
       | None => acc
       end)
    material_uniforms uniforms.
End animateMaterialUniforms.

(** ** renderer module and performance module: [initRenderer],
    [optimizeShadowMap] *)

Module WebGL.
Inductive ShadowMapType : Type :=
| BasicShadowMap
| PCFShadowMap
| PCFSoftShadowMap.

Record Renderer : Type := mkRenderer {
  antialias : bool;
  size : num * num;
  pixelRatio : num;
  shadowMap_enabled : bool;
  shadowMap_type : ShadowMapType;
}.

(** [options] of [initRenderer]. *)
Record RendererOptions : Type := mkRendererOptions {
  opt_antialias : option bool;
  opt_shadowMap : option bool;
}.

(** [const renderer = new THREE.WebGLRenderer({
       antialias: options.antialias !== undefined ? options.antialias : true });
     renderer.setSize(window.innerWidth, window.innerHeight);
     renderer.setPixelRatio(window.devicePixelRatio);
     renderer.shadowMap.enabled =
       options.shadowMap !== undefined ? options.shadowMap : true;
     renderer.shadowMap.type = THREE.PCFSoftShadowMap;]
    (the canvas is then appended to the container). *)
Definition initRenderer (options : RendererOptions)
  (innerWidth innerHeight devicePixelRatio : num) : Renderer :=
  mkRenderer
    (match opt_antialias options with Some b => b | None => true end)
    (innerWidth, innerHeight)
    devicePixelRatio
    (match opt_shadowMap options with Some b => b | None => true end)
    PCFSoftShadowMap.

(** [function optimizeShadowMap(renderer, useHighQuality = false) {
       if (useHighQuality) {
         renderer.shadowMap.type = THREE.PCFSoftShadowMap;
         renderer.shadowMap.enabled = true;
       } else {
         renderer.shadowMap.type = THREE.BasicShadowMap;
         renderer.shadowMap.enabled = true;
       }
     }] *)
Definition optimizeShadowMap (renderer : Renderer)
  (useHighQuality : option bool) : Renderer :=
  if default false useHighQuality then
    mkRenderer (antialias renderer) (size renderer) (pixelRatio renderer)
      true PCFSoftShadowMap
  else
    mkRenderer (antialias renderer) (size renderer) (pixelRatio renderer)
      true BasicShadowMap.
End WebGL.

(** * Properties *)

(** ** Numbers *)

Lemma Qgtb_lt (x y : Q) : Qgtb x y = true <-> (y < x)%Q.
Proof.
  unfold Qgtb. rewrite Bool.negb_true_iff. split.
  - intros H. apply Qnot_le_lt. intros Hle.
    apply Qle_bool_iff in Hle. congruence.
  - intros H. destruct (Qle_bool x y) eqn:E; [| reflexivity].
    apply Qle_bool_iff in E. lra.
Qed.

Lemma gt_Fin (x y : Q) : gt (Fin x) (Fin y) = true <-> (y < x)%Q.
Proof. apply Qgtb_lt. Qed.





(** ** The host *)

Ltac run_js :=
  unfold bind, requestAnimationFrame, call, read, write, gets, modify, ret,
    throw; simpl.

Lemma frame_one {C} (loop : num -> JS (World C) unit) now (w : World C) :
  pending w = 1%nat ->
  frame loop now w =
  run_callback (loop now) (mkWorld (vars w) 0 (calls w) (reported w)).
Proof. intros H. unfold frame. rewrite H. reflexivity. Qed.

Lemma frames_app {C} (loop : num -> JS (World C) unit) t1 t2 (w : World C) :
  frames loop (t1 ++ t2) w = frames loop t2 (frames loop t1 w).
Proof. unfold frames. apply fold_left_app. Qed.

(** ** [optimizeRenderLoop] and [renderWithComposer] *)

Lemma optimizeRenderLoop_loop_run {U} (renderFunction : JS U unit) (w : World U) :
  let w' := run_callback (optimizeRenderLoop_loop renderFunction) w in
  pending w' = S (pending w) /\ calls w' = S (calls w).
Proof.
  unfold run_callback, optimizeRenderLoop_loop. run_js.
  destruct (renderFunction (vars w)) as [u [[] | e]]; simpl; auto.
Qed.

Lemma optimizeRenderLoop_frames {U} (renderFunction : JS U unit) ticks :
  forall w : World U,
    pending w = 1%nat ->
    ticking (frames (fun _ => optimizeRenderLoop_loop renderFunction) ticks w)
      (calls w + length ticks).
Proof.
  induction ticks as [| t ticks IH]; intros w Hw; simpl.
  - split; [exact Hw | lia].
  - rewrite frame_one by exact Hw.
    destruct (optimizeRenderLoop_loop_run renderFunction
                (mkWorld (vars w) 0 (calls w) (reported w))) as [Hp Hc].
    simpl in Hp, Hc.
    specialize (IH _ Hp). rewrite Hc in IH.
    replace (calls w + S (length ticks))%nat
      with (S (calls w) + length ticks)%nat by lia.
    exact IH.
Qed.

(** C5 (as amended): in [optimizeRenderLoop] the next frame is requested
    before the per-frame work runs, so whatever [renderFunction] throws,
    and at whichever ticks, after the construction and any refreshes
    [ticks] the loop is requested again and [renderFunction] has been
    entered once at construction and once per refresh. *)
Theorem optimizeRenderLoop_keeps_ticking {U} (renderFunction : JS U unit)
  (u0 : U) (ticks : list num) :
  ticking
    (frames (fun _ => optimizeRenderLoop_loop renderFunction) ticks
       (start (optimizeRenderLoop renderFunction) (boot u0)))
    (S (length ticks)).
Proof.
  destruct (optimizeRenderLoop_loop_run renderFunction (boot u0)) as [Hp Hc].
  simpl in Hp, Hc.
  pose proof (optimizeRenderLoop_frames renderFunction ticks
                (w := start (optimizeRenderLoop renderFunction) (boot u0)) Hp)
    as H.
  unfold start, optimizeRenderLoop in *. rewrite Hc in H. exact H.
Qed.

(** C5 fails for [renderWithComposer]: the work runs before the next
    frame is requested.  A [customRender] that throws on its second run
    (the first refresh) leaves no request behind, and the two later
    refreshes enter nothing. *)
Lemma renderWithComposer_stops_after_error :
  let render := renderWithComposer_render (ret tt) (Some (failing_at 1)) in
  let w0 := start (renderWithComposer (ret tt) (Some (failing_at 1))) (boot 0%nat) in
  let w1 := frames (fun _ => render) [Fin 16] w0 in
  let w3 := frames (fun _ => render) [Fin 33; Fin 50] w1 in
  ticking w0 2 /\
  reported w1 = ["render failed"] /\ pending w1 = 0%nat /\
  calls w3 = calls w1 /\ vars w3 = vars w1 /\
  ~ ticking w3 (calls w1 + 2).
Proof.
  vm_compute. repeat split; try reflexivity. intros [H _]. discriminate H.
Qed.

(** The same failing callback under [optimizeRenderLoop]: the error of
    the first refresh is reported and the later refreshes still run. *)
Example optimizeRenderLoop_after_error :
  let w3 :=
    frames (fun _ => optimizeRenderLoop_loop (failing_at 1))
      [Fin 16; Fin 33; Fin 50]
      (start (optimizeRenderLoop (failing_at 1)) (boot 0%nat)) in
  reported w3 = ["render failed"] /\ pending w3 = 1%nat /\
  calls w3 = 4%nat /\ vars w3 = 4%nat.
Proof. vm_compute. repeat split; reflexivity. Qed.

(** Without an error [renderWithComposer] goes on: two entries per
    refresh, [customRender] and [composer.render]. *)
Example renderWithComposer_without_error :
  ticking
    (frames (fun _ => renderWithComposer_render (ret tt) (Some counting))
       [Fin 16; Fin 33]
       (start (renderWithComposer (ret tt) (Some counting)) (boot 0%nat)))
    6.
Proof. vm_compute. split; reflexivity. Qed.

(** ** [limitFrameRate] *)

Section limitFrameRate_facts.
Context {U : Type}.
Variable renderFunction : JS U unit.
Variable fps_arg : option num.

Local Abbreviation loop := (limitFrameRate_loop renderFunction fps_arg).
Local Abbreviation interval := (fpsInterval fps_arg).

(** What one run of [loop(time)] does. *)
Lemma limitFrameRate_loop_run (time : num) (w : World (Limiter U)) :
  let w' := run_callback (loop time) w in
  let delta := sub time (lastTime (vars w)) in
  pending w' = S (pending w) /\
  if gt delta interval
  then lastTime (vars w') = sub time (rem delta interval) /\
       calls w' = S (calls w) /\
       outside (vars w') = fst (renderFunction (outside (vars w)))
  else vars w' = vars w /\ calls w' = calls w.
Proof.
  unfold run_callback, limitFrameRate_loop. run_js.
  destruct (gt (sub time (lastTime (vars w))) interval); run_js.
  - destruct (renderFunction (outside (vars w))) as [u [[] | e]]; simpl; auto.
  - auto.
Qed.

Lemma accepts_gt (time : num) (w : World (Limiter U)) :
  accepts renderFunction fps_arg time w =
  gt (sub time (lastTime (vars w))) interval.
Proof.
  unfold accepts.
  destruct (limitFrameRate_loop_run time w) as [_ H].
  destruct (gt (sub time (lastTime (vars w))) interval).
  - destruct H as (_ & Hc & _). rewrite Hc. apply Nat.ltb_lt. lia.
  - destruct H as [_ Hc]. rewrite Hc. apply Nat.ltb_irrefl.
Qed.

Lemma verdicts_pacing (ticks : list num) :
  forall w : World (Limiter U),
    verdicts renderFunction fps_arg ticks w =
    pacing interval (lastTime (vars w)) ticks.
Proof.
  induction ticks as [| t ticks IH]; intros w; simpl; [reflexivity |].
  rewrite accepts_gt, IH.
  destruct (limitFrameRate_loop_run t w) as [_ H].
  destruct (gt (sub t (lastTime (vars w))) interval).
  - destruct H as (Hl & _). rewrite Hl. reflexivity.
  - destruct H as [Hv _]. rewrite Hv. reflexivity.
Qed.
End limitFrameRate_facts.

Lemma exceeds_Fin (t l i : Q) :
  gt (sub (Fin t) (Fin l)) (Fin i) = true <-> (i < t - l)%Q.
Proof.
  simpl. rewrite Qgtb_lt. rewrite (Qred_correct (t - l)). reflexivity.
Qed.

(** C1 (as amended): a run of [loop(time)] enters [renderFunction] if and
    only if the time elapsed since [lastTime] is strictly greater than
    [fpsInterval = 1000 / fps]; along any sequence of ticks the verdicts
    are those of the pacing rule; on finite numbers the test is
    [interval < time - lastTime]; and with [lastTime = 0] and an interval
    of 16 ms ([fps = 62.5]) the ticks at 0 and 10 are skipped and the tick
    at 20 is accepted. *)
Theorem limitFrameRate_accepts_iff_exceeds {U} (renderFunction : JS U unit)
  (fps_arg : option num) :
  (forall (w : World (Limiter U)) (time : num),
      accepts renderFunction fps_arg time w = true <->
      gt (sub time (lastTime (vars w))) (fpsInterval fps_arg) = true) /\
  (forall (w : World (Limiter U)) (ticks : list num),
      verdicts renderFunction fps_arg ticks w =
      pacing (fpsInterval fps_arg) (lastTime (vars w)) ticks) /\
  (forall t l i : Q,
      gt (sub (Fin t) (Fin l)) (Fin i) = true <-> (i < t - l)%Q) /\
  (forall u0 : U,
      fpsInterval (Some (Fin (125 # 2))) = Fin 16 /\
      verdicts renderFunction (Some (Fin (125 # 2)))
        [Fin 0; Fin 10; Fin 20] (boot (mkLimiter (Fin 0) u0)) =
      [false; false; true]).
Proof.
  split; [| split; [| split]].
  - intros w time. rewrite accepts_gt. reflexivity.
  - intros w ticks. apply verdicts_pacing.
  - apply exceeds_Fin.
  - intros u0. split; [reflexivity |]. rewrite verdicts_pacing. reflexivity.
Qed.

(** C1 fails as stated: with [lastTime] initialised to 0 and an interval
    of 16 ms the tick at 0 is not accepted (nothing has elapsed), and a
    tick whose elapsed time equals the interval is not accepted either
    (the test is strict).  Through the construction: after the refreshes
    at 0 and 10 the render function has not run, after the one at 20 it
    has run once. *)
Lemma limitFrameRate_skips_first_tick :
  let fps := Some (Fin (125 # 2)) in
  let w0 := boot (mkLimiter (Fin 0) 0%nat) in
  fpsInterval fps = Fin 16 /\
  verdicts counting fps [Fin 0; Fin 10; Fin 20] w0 <> [true; false; true] /\
  accepts counting fps (Fin 0) w0 = false /\
  (num_le (fpsInterval fps) (sub (Fin 16) (lastTime (vars w0))) /\
   accepts counting fps (Fin 16) w0 = false) /\
  calls (limiter_after counting fps 0%nat [Fin 0; Fin 10]) = 0%nat /\
  calls (limiter_after counting fps 0%nat [Fin 0; Fin 10; Fin 20]) = 1%nat.
Proof.
  vm_compute. repeat split; try reflexivity.
  - discriminate.
  - discriminate.
Qed.

(** C6: when a run of [loop(time)] accepts the tick, the new [lastTime]
    is [time - (delta % fpsInterval)] with [delta = time - lastTime] taken
    before the run. *)
Theorem limitFrameRate_lastTime_on_accept {U} (renderFunction : JS U unit)
  (fps_arg : option num) (w : World (Limiter U)) (time : num) :
  accepts renderFunction fps_arg time w = true ->
  lastTime (vars (run_callback (limitFrameRate_loop renderFunction fps_arg time) w)) =
  sub time (rem (sub time (lastTime (vars w))) (fpsInterval fps_arg)).
Proof.
  rewrite accepts_gt. intros Hgt.
  destruct (limitFrameRate_loop_run renderFunction fps_arg time w) as [_ H].
  rewrite Hgt in H. destruct H as [Hl _]. exact Hl.
Qed.

(** The tick at 20 ms, 16 ms interval: accepted, and [lastTime] becomes
    20 - (20 % 16) = 16. *)
Lemma limitFrameRate_lastTime_on_accept_witness :
  let fps := Some (Fin (125 # 2)) in
  let w := boot (mkLimiter (Fin 0) 0%nat) in
  accepts counting fps (Fin 20) w = true /\
  lastTime (vars (run_callback (limitFrameRate_loop counting fps (Fin 20)) w)) =
  Fin 16.
Proof.
  split.
  - reflexivity.
  - exact (limitFrameRate_lastTime_on_accept (renderFunction := counting)
             (fps_arg := Some (Fin (125 # 2)))
             (w := boot (mkLimiter (Fin 0) 0%nat)) (time := Fin 20) eq_refl).
Defined.

(** The construction: [lastTime] is set to 0 and [loop(0)] runs. *)
Lemma limitFrameRate_run {U} (renderFunction : JS U unit) (fps_arg : option num)
  (w : World (Limiter U)) :
  let w' := fst (limitFrameRate renderFunction fps_arg w) in
  let r := snd (limitFrameRate renderFunction fps_arg w) in
  pending w' = S (pending w) /\
  (r = Ok tt \/
   exists e, r = Threw e /\ snd (renderFunction (outside (vars w))) = Threw e) /\
  calls w' =
  if gt (Fin 0) (fpsInterval fps_arg) then S (calls w) else calls w.
Proof.
  unfold limitFrameRate, limitFrameRate_loop, bind, write, read, gets, modify,
    requestAnimationFrame, ret, call.
  cbn -[gt sub rem fpsInterval].
  change (sub (Fin 0) (Fin 0)) with (Fin 0).
  destruct (gt (Fin 0) (fpsInterval fps_arg)); cbn -[gt sub rem fpsInterval].
  - destruct (renderFunction (outside (vars w))) as [u [[] | e]];
      cbn -[gt sub rem fpsInterval]; repeat split; eauto.
  - repeat split; auto.
Qed.

Lemma start_limitFrameRate {U} (renderFunction : JS U unit)
  (fps_arg : option num) (w : World (Limiter U)) :
  start (limitFrameRate renderFunction fps_arg) w =
  run_callback (limitFrameRate_loop renderFunction fps_arg (Fin 0))
    (mkWorld (mkLimiter (Fin 0) (outside (vars w))) (pending w) (calls w)
       (reported w)).
Proof. reflexivity. Qed.

(** C4 (as amended): constructing the limiter with a target interval
    that is not positive does not fail on that account.  The loop is
    requested, and the only exception the construction can let through
    is one thrown by [renderFunction] itself; afterwards every tick with
    a positive elapsed time is accepted. *)
Theorem limitFrameRate_accepts_any_interval {U} (renderFunction : JS U unit)
  (fps_arg : option num) (w : World (Limiter U)) :
  num_le (fpsInterval fps_arg) (Fin 0) ->
  let w' := fst (limitFrameRate renderFunction fps_arg w) in
  let r := snd (limitFrameRate renderFunction fps_arg w) in
  pending w' = S (pending w) /\
  (r = Ok tt \/
   exists e, r = Threw e /\ snd (renderFunction (outside (vars w))) = Threw e) /\
  (forall (v : World (Limiter U)) (time : num) (elapsed : Q),
      sub time (lastTime (vars v)) = Fin elapsed -> (0 < elapsed)%Q ->
      accepts renderFunction fps_arg time v = true).
Proof.
  intros Hle.
  destruct (limitFrameRate_run renderFunction fps_arg w) as (Hp & Hr & _).
  split; [exact Hp | split; [exact Hr |]].
  intros v time elapsed He Hpos. rewrite accepts_gt, He.
  destruct (fpsInterval fps_arg) as [y | | |]; simpl in Hle; try contradiction.
  - apply gt_Fin. lra.
  - reflexivity.
Qed.

(** At [fps = -1]. *)
Lemma limitFrameRate_accepts_any_interval_witness :
  let fps := Some (Fin (-1)) in
  let w := boot (mkLimiter NaN 0%nat) in
  num_le (fpsInterval fps) (Fin 0) /\
  pending (fst (limitFrameRate counting fps w)) = 1%nat /\
  snd (limitFrameRate counting fps w) = Ok tt.
Proof.
  assert (H : num_le (fpsInterval (Some (Fin (-1)))) (Fin 0)).
  { vm_compute. discriminate. }
  pose proof (@limitFrameRate_accepts_any_interval nat counting
                (Some (Fin (-1))) (boot (mkLimiter NaN 0%nat)) H)
    as (Hp & _ & _).
  split; [exact H | split; [exact Hp | reflexivity]].
Defined.

(** C4 fails as stated: with [fps = -1] the interval is -1000 ms, yet the
    construction returns normally, nothing is reported, the loop is
    requested, and [renderFunction] has already run once. *)
Lemma limitFrameRate_negative_interval_constructs :
  let fps := Some (Fin (-1)) in
  let w := boot (mkLimiter NaN 0%nat) in
  fpsInterval fps = Fin (-1000) /\
  num_le (fpsInterval fps) (Fin 0) /\
  snd (limitFrameRate counting fps w) = Ok tt /\
  (forall e, snd (limitFrameRate counting fps w) <> Threw e) /\
  reported (start (limitFrameRate counting fps) w) = [] /\
  pending (start (limitFrameRate counting fps) w) = 1%nat /\
  calls (start (limitFrameRate counting fps) w) = 1%nat.
Proof.
  vm_compute. repeat split; try reflexivity; discriminate.
Qed.



Section limitFrameRate_monotone.
Context {U : Type}.
Variable renderFunction : JS U unit.
Variable fps_arg : option num.
Hypothesis fps_not_PInf : fps fps_arg <> PInf.
Hypothesis fps_not_NInf : fps fps_arg <> NInf.

Local Abbreviation loop := (limitFrameRate_loop renderFunction fps_arg).


End limitFrameRate_monotone.




(** ** [dynamicResolutionScaling] *)

Ltac run_scaler :=
  unfold run_callback, dynamicResolutionScaling, dynamicResolutionScaling_loop,
    adjustResolution, setPixelRatio, ratios, adjustment, lowRatio, highRatio,
    bind, write, read, gets, modify, requestAnimationFrame, ret;
  cbn -[lt gt Math_max Math_min sub add or_else].

(** What one run of [loop] does: it applies the adjustment the current
    reading calls for, computed from [basePixelRatio]. *)
Lemma dynamicResolutionScaling_loop_run (w : World Scaler) :
  let w' := run_callback dynamicResolutionScaling_loop w in
  pending w' = S (pending w) /\
  basePixelRatio (vars w') = basePixelRatio (vars w) /\
  ratios w' =
  ratios w ++ adjustment (basePixelRatio (vars w)) (stats_fps (vars w)).
Proof.
  run_scaler.
  destruct (lt (stats_fps (vars w)) (Fin 30)); [| destruct (gt _ _)];
    cbn -[lt gt Math_max Math_min sub add or_else];
    rewrite ?app_nil_r; auto.
Qed.

Lemma scaler_frames (env : list (num * num)) :
  forall w : World Scaler,
    pending w = 1%nat ->
    let w' :=
      fold_left
        (fun w e =>
           frame (fun _ => dynamicResolutionScaling_loop) NaN (observe e w))
        env w in
    pending w' = 1%nat /\
    basePixelRatio (vars w') = basePixelRatio (vars w) /\
    ratios w' =
    ratios w ++ flat_map (adjustment (basePixelRatio (vars w))) (map snd env).
Proof.
  induction env as [| e env IH]; intros w Hp; simpl.
  - rewrite app_nil_r. auto.
  - rewrite frame_one by exact Hp.
    set (v := mkWorld _ 0 _ _).
    destruct (dynamicResolutionScaling_loop_run v) as (Hp' & Hb & Hr).
    destruct (IH _ Hp') as (IHp & IHb & IHr).
    split; [exact IHp |]. split; [rewrite IHb; exact Hb |].
    rewrite IHr, Hr, Hb. subst v. unfold ratios. simpl.
    rewrite <- app_assoc. reflexivity.
Qed.

Lemma scaler_after_ratios (p0 dpr fps0 : num) (env : list (num * num)) :
  let w := scaler_after p0 dpr fps0 env in
  pending w = 1%nat /\
  basePixelRatio (vars w) = or_else dpr (Fin 1) /\
  ratios w = flat_map (adjustment (or_else dpr (Fin 1))) (fps0 :: map snd env).
Proof.
  unfold scaler_after.
  set (w0 := start dynamicResolutionScaling _).
  assert (H0 : pending w0 = 1%nat /\
               basePixelRatio (vars w0) = or_else dpr (Fin 1) /\
               ratios w0 = adjustment (or_else dpr (Fin 1)) fps0).
  { subst w0. unfold start, boot. run_scaler.
    destruct (lt fps0 (Fin 30)); [| destruct (gt _ _)];
      cbn -[lt gt Math_max Math_min sub add or_else]; auto. }
  destruct H0 as (Hp & Hb & Hr).
  destruct (scaler_frames env (w := w0) Hp) as (Hp' & Hb' & Hr').
  split; [exact Hp' |]. split; [rewrite Hb'; exact Hb |].
  rewrite Hr', Hr, Hb. simpl. reflexivity.
Qed.

Lemma lowRatio_bounds (b : Q) :
  (b <= 5 # 2)%Q ->
  num_le (Fin (1 # 2)) (lowRatio (Fin b)) /\ num_le (lowRatio (Fin b)) (Fin 2).
Proof.
  intros Hb. unfold lowRatio, Math_max, sub.
  destruct (gt (Fin (Qred (b - (1 # 2)))) (Fin (1 # 2))) eqn:E; simpl.
  - apply gt_Fin in E. rewrite Qred_correct in *. split; lra.
  - split; lra.
Qed.

Lemma highRatio_bounds (b : Q) :
  (0 <= b)%Q ->
  num_le (Fin (1 # 2)) (highRatio (Fin b)) /\ num_le (highRatio (Fin b)) (Fin 2).
Proof.
  intros Hb. unfold highRatio, Math_min, add, lt.
  destruct (gt (Fin 2) (Fin (Qred (b + (1 # 2))))) eqn:E; simpl.
  - apply gt_Fin in E. rewrite Qred_correct in *. split; lra.
  - split; lra.
Qed.

(** C10: the scaler computes every ratio from [basePixelRatio], which is
    [window.devicePixelRatio || 1] as read at setup and never changes,
    whatever the device pixel ratio becomes later.  The ratios it applies
    are, reading by reading, [Math.max(0.5, base - 0.5)] when [fps < 30],
    [Math.min(2, base + 0.5)] when [fps > 50] and nothing otherwise: they
    depend neither on the renderer's previous ratio nor on earlier
    adjustments, and take at most two values. *)
Theorem dynamicResolutionScaling_two_ratios (p0 dpr fps0 : num)
  (env : list (num * num)) :
  let base := or_else dpr (Fin 1) in
  let w := scaler_after p0 dpr fps0 env in
  basePixelRatio (vars w) = base /\
  ratios w = flat_map (adjustment base) (fps0 :: map snd env) /\
  Forall (fun v => v = lowRatio base \/ v = highRatio base) (ratios w).
Proof.
  destruct (scaler_after_ratios p0 dpr fps0 env) as (_ & Hb & Hr).
  split; [exact Hb | split; [exact Hr |]].
  rewrite Hr. apply Forall_flat_map, Forall_forall. intros fps _.
  unfold adjustment.
  destruct (lt fps (Fin 30)); [| destruct (gt fps (Fin 50))].
  - constructor; [left; reflexivity | constructor].
  - constructor; [right; reflexivity | constructor].
  - constructor.
Qed.

(** C2 (as amended): when the base pixel ratio captured at setup lies in
    [0, 2.5], every ratio the scaler applies lies in [0.5, 2], for every
    sequence of readings; and with base 1.0 and the readings
    20, 20, 60, 60 the applied ratios are 0.5, 0.5, 1.5, 1.5. *)
Theorem dynamicResolutionScaling_ratio_bounds (p0 dpr fps0 : num)
  (env : list (num * num)) (b : Q) :
  or_else dpr (Fin 1) = Fin b -> (0 <= b)%Q -> (b <= 5 # 2)%Q ->
  Forall (fun v => num_le (Fin (1 # 2)) v /\ num_le v (Fin 2))
    (ratios (scaler_after p0 dpr fps0 env)) /\
  ratios (scaler_after p0 (Fin 1) (Fin 20)
            [(Fin 1, Fin 20); (Fin 1, Fin 60); (Fin 1, Fin 60)]) =
  [Fin (1 # 2); Fin (1 # 2); Fin (3 # 2); Fin (3 # 2)].
Proof.
  intros Hbase H0 H1. split.
  - destruct (scaler_after_ratios p0 dpr fps0 env) as (_ & _ & Hr).
    rewrite Hr, Hbase. apply Forall_flat_map, Forall_forall. intros fps _.
    unfold adjustment.
    destruct (lt fps (Fin 30)); [| destruct (gt fps (Fin 50))].
    + constructor; [apply lowRatio_bounds; exact H1 | constructor].
    + constructor; [apply highRatio_bounds; exact H0 | constructor].
    + constructor.
  - destruct (scaler_after_ratios p0 (Fin 1) (Fin 20)
                [(Fin 1, Fin 20); (Fin 1, Fin 60); (Fin 1, Fin 60)])
      as (_ & _ & Hr).
    rewrite Hr. reflexivity.
Qed.

(** On a display of device pixel ratio 2, readings 20, 40, 60. *)
Lemma dynamicResolutionScaling_ratio_bounds_witness :
  or_else (Fin 2) (Fin 1) = Fin 2 /\ (0 <= 2)%Q /\ (2 <= 5 # 2)%Q /\
  Forall (fun v => num_le (Fin (1 # 2)) v /\ num_le v (Fin 2))
    (ratios (scaler_after (Fin 2) (Fin 2) (Fin 20)
               [(Fin 2, Fin 40); (Fin 2, Fin 60)])).
Proof.
  assert (H0 : (0 <= 2)%Q) by (vm_compute; discriminate).
  assert (H1 : (2 <= 5 # 2)%Q) by (vm_compute; discriminate).
  split; [reflexivity | split; [exact H0 | split; [exact H1 |]]].
  exact (proj1 (@dynamicResolutionScaling_ratio_bounds (Fin 2) (Fin 2) (Fin 20)
                  [(Fin 2, Fin 40); (Fin 2, Fin 60)] 2 eq_refl H0 H1)).
Defined.

(** C2 fails as stated.  With a starting ratio of 1.0 and the readings
    20, 20, 60, 60 the third ratio applied is 1.5, not 1.0: the step is
    taken from the base, not from the current ratio.  And the upper bound
    is not kept: on a display of device pixel ratio 3 a low reading
    applies 2.5. *)
Lemma dynamicResolutionScaling_no_accumulation :
  let w := scaler_after (Fin 1) (Fin 1) (Fin 20)
             [(Fin 1, Fin 20); (Fin 1, Fin 60); (Fin 1, Fin 60)] in
  ratios w = [Fin (1 # 2); Fin (1 # 2); Fin (3 # 2); Fin (3 # 2)] /\
  ratios w <> [Fin (1 # 2); Fin (1 # 2); Fin 1; Fin (3 # 2)] /\
  ratios (scaler_after (Fin 3) (Fin 3) (Fin 20) []) = [Fin (5 # 2)] /\
  ~ num_le (Fin (5 # 2)) (Fin 2).
Proof.
  vm_compute. repeat split; try reflexivity.
  - discriminate.
  - intros H. apply H. reflexivity.
Qed.

(** ** [manageResourceIntensiveObjects] *)

Section Culling.
Variables Matrix4 Frustum Pose Geometry Material Volume : Type.
Variable updateMatrixWorld : Camera Matrix4 Pose -> Camera Matrix4 Pose.
Variable getInverse : Matrix4 -> Matrix4.
Variable multiplyMatrices : Matrix4 -> Matrix4 -> Matrix4.
Variable setFromProjectionMatrix : Matrix4 -> Frustum.
Variable boundingVolume : Geometry -> Matrix4 -> Volume.
Variable intersectsVolume : Frustum -> Volume -> bool.

Local Abbreviation Obj := (Object3D Matrix4 Geometry Material).
Local Abbreviation St := (Culler Matrix4 Frustum Pose Geometry Material).
Local Abbreviation test := (intersectsObject boundingVolume intersectsVolume).
Local Abbreviation hide := (culled boundingVolume intersectsVolume).
Local Abbreviation cull1 := (cull (Pose := Pose) boundingVolume intersectsVolume).
Local Abbreviation upd :=
  (update (Material := Material) updateMatrixWorld getInverse multiplyMatrices
     setFromProjectionMatrix boundingVolume intersectsVolume).
Local Abbreviation frustumOf :=
  (viewFrustum updateMatrixWorld getInverse multiplyMatrices
     setFromProjectionMatrix).

Lemma culled_unmoved (f : Frustum) (o o' : Obj) :
  unmoved o o' -> visible (hide f o') = visible (hide f o).
Proof.
  intros [Hg Hp]. unfold culled, intersectsObject. simpl. rewrite Hg, Hp.
  reflexivity.
Qed.

(** One step of the traversal rewrites the flag of the object referred
    to, in place. *)
Lemma cull_run (l : positive) (w : World St) :
  cull1 l w =
  (mkWorld
     (mkCuller (camera (vars w)) (frustum (vars w))
        (cameraViewProjectionMatrix (vars w))
        (alter (hide (frustum (vars w))) l (heap (vars w)))
        (objects (vars w)))
     (pending w) (calls w) (reported w),
   Ok tt).
Proof.
  destruct w as [[cam f vp h objs] p c r].
  unfold cull. run_js. destruct (h !! l) as [o |] eqn:E.
  - assert (Ha : forall b, test f o = b ->
                 alter (set_visible b) l h = alter (hide f) l h).
    { intros b Hb. apply alter_ext. intros x Hx.
      rewrite E in Hx. injection Hx as <-. unfold culled. rewrite Hb.
      reflexivity. }
    destruct (test f o) eqn:Ht; run_js; unfold assign_visible; simpl;
      rewrite (Ha _ eq_refl); reflexivity.
  - run_js. do 3 f_equal. apply map_eq. intros j. rewrite lookup_alter.
    destruct (decide (l = j)) as [<- |]; [rewrite E |]; reflexivity.
Qed.

(** The traversal as a whole: every reference of the array has the flag
    of its object set by the test; nothing else moves. *)
Lemma forEach_cull_run (objs : list positive) :
  forall w : World St,
    exists h,
      forEach objs cull1 w =
      (mkWorld
         (mkCuller (camera (vars w)) (frustum (vars w))
            (cameraViewProjectionMatrix (vars w)) h (objects (vars w)))
         (pending w) (calls w) (reported w),
       Ok tt) /\
      forall l,
        h !! l =
        if decide (l ∈ objs)
        then hide (frustum (vars w)) <$> heap (vars w) !! l
        else heap (vars w) !! l.
Proof.
  induction objs as [| x objs IH]; intros w.
  - exists (heap (vars w)). split.
    + destruct w as [[cam f vp h os] p c r]. reflexivity.
    + intros l. destruct (decide (l ∈ [])) as [Hin |]; [| reflexivity].
      inversion Hin.
  - simpl forEach. unfold bind at 1. rewrite cull_run. cbv beta iota.
    match goal with
    | |- context [forEach objs _ ?w1] => destruct (IH w1) as (h & Hrun & Hh)
    end.
    simpl in Hrun, Hh. exists h. split; [exact Hrun |].
    intros l. rewrite Hh, lookup_alter.
    destruct (decide (l ∈ x :: objs)) as [Hin | Hnin];
      destruct (decide (l ∈ objs)) as [Hin' | Hnin'];
      destruct (decide (x = l)) as [<- | Hne];
      try reflexivity.
    + destruct (heap (vars w) !! x); reflexivity.
    + apply elem_of_cons in Hin as [-> | Hin]; [congruence | tauto].
    + exfalso. apply Hnin, elem_of_cons. left. reflexivity.
    + exfalso. apply Hnin, elem_of_cons. right. exact Hin'.
    + exfalso. apply Hnin, elem_of_cons. left. reflexivity.
Qed.

(** One [update]: the camera matrices and the two buffers are renewed,
    then the traversal runs against the new frustum.  It returns
    normally and leaves the array, the requests and the counters alone. *)
Lemma update_run (w : World St) :
  let cam := updateMatrixWorld (camera (vars w)) in
  let cam' := set_matrixWorldInverse (getInverse (matrixWorld cam)) cam in
  let vp' :=
    multiplyMatrices (projectionMatrix cam') (matrixWorldInverse cam') in
  exists h,
    upd w =
    (mkWorld
       (mkCuller cam' (frustumOf (camera (vars w))) vp' h (objects (vars w)))
       (pending w) (calls w) (reported w),
     Ok tt) /\
    forall l,
      h !! l =
      if decide (l ∈ objects (vars w))
      then hide (frustumOf (camera (vars w))) <$> heap (vars w) !! l
      else heap (vars w) !! l.
Proof.
  destruct w as [[cam f vp h0 objs] p c r].
  unfold update, bind, write, read, gets, modify. cbn -[forEach].
  match goal with
  | |- context [forEach objs _ ?w1] =>
      destruct (forEach_cull_run objs w1) as (h & Hrun & Hh)
  end.
  simpl in Hrun, Hh. rewrite Hrun.
  exists h. split; [reflexivity | exact Hh].
Qed.

(** C3: after an [update], the frustum buffer holds the frustum of the
    camera's current view and projection, and the flag of every object of
    the array is the outcome of the intersection test against it: false
    exactly when the object does not intersect, true exactly when it
    does. *)
Theorem update_sets_visibility (w : World St) (l : positive) (o : Obj) :
  l ∈ objects (vars w) -> heap (vars w) !! l = Some o ->
  let w' := fst (upd w) in
  let f := frustumOf (camera (vars w)) in
  frustum (vars w') = f /\
  visibleAt l w' = Some (test f o) /\
  (visibleAt l w' = Some false <-> test f o = false) /\
  (visibleAt l w' = Some true <-> test f o = true).
Proof.
  intros Hin Ho.
  destruct (update_run w) as (h & Hrun & Hh).
  rewrite Hrun. simpl. unfold visibleAt. simpl.
  rewrite Hh, decide_True by exact Hin. rewrite Ho. simpl.
  repeat split; congruence.
Qed.

(** C9: an [update] changes nothing of an object but its visibility
    flag.  The array of managed references and the set of live objects
    are the same afterwards, each object keeps its geometry, material and
    placement, and an object that is not in the array is left as it
    was. *)
Theorem update_changes_only_visibility (w : World St) (l : positive) (o : Obj) :
  heap (vars w) !! l = Some o ->
  let w' := fst (upd w) in
  objects (vars w') = objects (vars w) /\
  dom (heap (vars w')) = dom (heap (vars w)) /\
  exists v, heap (vars w') !! l = Some (set_visible v o) /\
            (l ∉ objects (vars w) -> set_visible v o = o).
Proof.
  intros Ho.
  destruct (update_run w) as (h & Hrun & Hh).
  rewrite Hrun. simpl. split; [reflexivity |]. split.
  - apply set_eq. intros j. rewrite !elem_of_dom, Hh.
    destruct (decide (j ∈ objects (vars w))); [| reflexivity].
    rewrite <- !not_eq_None_Some, fmap_None. reflexivity.
  - rewrite Hh, Ho.
    destruct (decide (l ∈ objects (vars w))) as [Hin | Hnin]; simpl.
    + eexists. split; [reflexivity |]. intros Hn. contradiction.
    + exists (visible o). split; [| intros _]; destruct o; reflexivity.
Qed.

(** C8: an [update] is idempotent on the flags.  Let [w] be the world
    before a first update and [v] the world before the next one.  If the
    camera yields the same frustum in [v] as in [w] and a managed object
    has in [v] the geometry and placement it had, then the second update
    leaves its flag at the value the first update gave it. *)
Theorem update_idempotent (w v : World St) (l : positive) (o o' : Obj) :
  frustumOf (camera (vars v)) = frustumOf (camera (vars w)) ->
  l ∈ objects (vars w) -> l ∈ objects (vars v) ->
  heap (vars (fst (upd w))) !! l = Some o ->
  heap (vars v) !! l = Some o' ->
  unmoved o o' ->
  visibleAt l (fst (upd v)) = Some (visible o) /\
  visibleAt l (fst (upd v)) = visibleAt l (fst (upd w)).
Proof.
  intros Hf Hw Hv Ho Ho' Hsame.
  destruct (update_run w) as (h1 & Hrun1 & Hh1).
  destruct (update_run v) as (h2 & Hrun2 & Hh2).
  rewrite Hrun1 in Ho. simpl in Ho.
  rewrite Hh1, decide_True in Ho by exact Hw.
  destruct (heap (vars w) !! l) as [o0 |] eqn:E0; [| discriminate Ho].
  simpl in Ho. injection Ho as <-.
  unfold visibleAt. rewrite Hrun1, Hrun2. simpl.
  rewrite Hh1, Hh2, !decide_True by assumption.
  rewrite Ho', E0, Hf. simpl.
  assert (Heq : visible (hide (frustumOf (camera (vars w))) o') =
                visible (hide (frustumOf (camera (vars w))) o0)).
  { apply culled_unmoved. destruct Hsame as [Hg Hp]. split; [exact Hg | exact Hp]. }
  split; f_equal; exact Heq.
Qed.

(** Each refresh of the running loop performs one [update]. *)
Lemma manageResourceIntensiveObjects_frame (now : num) (w : World St) :
  pending w = 1%nat ->
  let w' :=
    frame (fun _ =>
             manageResourceIntensiveObjects_loop (Material := Material)
               updateMatrixWorld getInverse multiplyMatrices
               setFromProjectionMatrix boundingVolume intersectsVolume)
      now w in
  pending w' = 1%nat /\ vars w' = vars (fst (upd w)).
Proof.
  intros Hp. rewrite frame_one by exact Hp.
  unfold run_callback, manageResourceIntensiveObjects_loop, bind,
    requestAnimationFrame, modify. cbn -[update].
  destruct (update_run (mkWorld (vars w) 1 (calls w) (reported w)))
    as (h1 & Hrun1 & Hh1).
  destruct (update_run w) as (h2 & Hrun2 & Hh2).
  rewrite Hrun1, Hrun2. simpl. split; [reflexivity |].
  f_equal. apply map_eq. intros j. rewrite Hh1, Hh2. reflexivity.
Qed.
End Culling.

(** The three statements on the one-dimensional instance: the near
    object, hidden so far, is shown by the update. *)
Lemma update_sets_visibility_witness :
  1%positive ∈ objects (vars Line.world) /\
  heap (vars Line.world) !! 1%positive = Some Line.near /\
  visibleAt 1 (fst (Line.update Line.world)) = Some true.
Proof.
  assert (Hin : 1%positive ∈ objects (vars Line.world)).
  { apply elem_of_cons. left. reflexivity. }
  split; [exact Hin | split; [reflexivity |]].
  exact (proj1 (proj2
    (@update_sets_visibility Z Z unit Z string (Z * Z)
       Line.updateMatrixWorld Line.getInverse Line.multiplyMatrices
       Line.setFromProjectionMatrix Line.boundingVolume Line.intersectsVolume
       Line.world 1%positive Line.near Hin eq_refl))).
Defined.

(** The far object is hidden by the update and stays in the array and
    among the live objects. *)
Lemma update_changes_only_visibility_witness :
  heap (vars Line.world) !! 2%positive = Some Line.far /\
  objects (vars (fst (Line.update Line.world))) = objects (vars Line.world) /\
  dom (heap (vars (fst (Line.update Line.world)))) =
  dom (heap (vars Line.world)).
Proof.
  split; [reflexivity |].
  pose proof (@update_changes_only_visibility Z Z unit Z string (Z * Z)
                Line.updateMatrixWorld Line.getInverse Line.multiplyMatrices
                Line.setFromProjectionMatrix Line.boundingVolume
                Line.intersectsVolume Line.world 2%positive Line.far eq_refl)
    as (Hobjs & Hdom & _).
  split; [exact Hobjs | exact Hdom].
Defined.

(** A second update right after the first keeps the far object
    hidden. *)
Lemma update_idempotent_witness :
  let w1 := fst (Line.update Line.world) in
  let w2 := fst (Line.update w1) in
  heap (vars w1) !! 2%positive = Some (set_visible false Line.far) /\
  unmoved (set_visible false Line.far) (set_visible false Line.far) /\
  visibleAt 2 w2 = Some false.
Proof.
  assert (Hin : forall w : World (Culler Z Z unit Z string),
             objects (vars w) = objects (vars Line.world) ->
             2%positive ∈ objects (vars w)).
  { intros w ->. apply elem_of_cons. right. apply elem_of_cons. left.
    reflexivity. }
  assert (Hsame : unmoved (set_visible false Line.far)
                    (set_visible false Line.far)).
  { split; reflexivity. }
  split; [reflexivity | split; [exact Hsame |]].
  exact (proj1
    (@update_idempotent Z Z unit Z string (Z * Z)
       Line.updateMatrixWorld Line.getInverse Line.multiplyMatrices
       Line.setFromProjectionMatrix Line.boundingVolume Line.intersectsVolume
       Line.world (fst (Line.update Line.world)) 2%positive
       (set_visible false Line.far) (set_visible false Line.far)
       eq_refl (Hin _ eq_refl) (Hin _ eq_refl) eq_refl eq_refl Hsame)).
Defined.

(** * Further properties of the modelled code *)

(** ** [limitFrameRate]: pacing with a positive interval *)

Lemma Qtrunc_floor (q : Q) : (0 <= q)%Q -> Qtrunc q = Qfloor q.
Proof.
  destruct q as [n d]. unfold Qle, Qtrunc, Qfloor. simpl. intros H.
  apply Z.quot_div_nonneg; lia.
Qed.

Lemma Qtrunc_le (q : Q) : (0 <= q)%Q -> (inject_Z (Qtrunc q) <= q)%Q.
Proof. intros H. rewrite (Qtrunc_floor H). apply Qfloor_le. Qed.

Lemma Qtrunc_lt (q : Q) : (0 <= q)%Q -> (q < inject_Z (Qtrunc q) + 1)%Q.
Proof.
  intros H. rewrite (Qtrunc_floor H).
  pose proof (Qlt_floor q) as Hlt. rewrite inject_Z_plus in Hlt. exact Hlt.
Qed.

Lemma Qtrunc_ge_1 (q : Q) : (1 <= q)%Q -> (1 <= Qtrunc q)%Z.
Proof.
  intros H. rewrite Qtrunc_floor by lra.
  change 1%Z with (Qfloor (inject_Z 1)). apply Qfloor_resp_le. exact H.
Qed.

(** An accepted tick, for a positive interval: [lastTime] advances by a
    whole number (at least one) of intervals and lands within one
    interval before the tick. *)
Lemma pace_step_pos (t l y : Q) :
  (0 < y)%Q ->
  gt (sub (Fin t) (Fin l)) (Fin y) = true ->
  exists (l' : Q) (k : Z),
    sub (Fin t) (rem (sub (Fin t) (Fin l)) (Fin y)) = Fin l' /\
    (1 <= k)%Z /\ (l' == l + y * inject_Z k)%Q /\
    (l' <= t)%Q /\ (t < l' + y)%Q.
Proof.
  intros Hy Hgt. apply gt_Fin in Hgt. simpl.
  destruct (Qeq_bool y 0) eqn:E.
  { apply Qeq_bool_iff in E. lra. }
  set (d := Qred (t - l)) in *.
  assert (Hd : (d == t - l)%Q) by apply Qred_correct.
  assert (Hq1 : (1 <= d / y)%Q).
  { apply Qle_shift_div_l; lra. }
  assert (Hq0 : (0 <= d / y)%Q) by lra.
  pose proof (Qtrunc_ge_1 Hq1) as Hk1.
  pose proof (Qtrunc_le Hq0) as Hlo.
  pose proof (Qtrunc_lt Hq0) as Hhi.
  set (k := Qtrunc (d / y)) in *.
  assert (Hdy : (d == y * (d / y))%Q) by (field; lra).
  assert (Hlo' : (y * inject_Z k <= y * (d / y))%Q).
  { apply Qmult_le_l; assumption. }
  assert (Hhi' : (y * (d / y) < y * (inject_Z k + 1))%Q).
  { apply Qmult_lt_l; assumption. }
  rewrite <- Hdy in Hlo', Hhi'.
  assert (Hexp : (y * (inject_Z k + 1) == y * inject_Z k + y)%Q) by ring.
  rewrite Hexp in Hhi'.
  exists (Qred (t - Qred (d - y * inject_Z k))), k.
  split; [reflexivity |]. split; [exact Hk1 |].
  set (X := (y * inject_Z k)%Q) in *. clearbody X.
  rewrite !Qred_correct. repeat split; lra.
Qed.

Section limitFrameRate_rate.
Context {U : Type}.
Variable renderFunction : JS U unit.
Variable f : Q.
Hypothesis f_pos : (0 < f)%Q.

Local Abbreviation fps_arg := (Some (Fin f)).
Local Abbreviation loop := (limitFrameRate_loop renderFunction fps_arg).

Lemma fpsInterval_pos :
  exists y, fpsInterval fps_arg = Fin y /\ (y == 1000 / f)%Q /\ (0 < y)%Q.
Proof.
  unfold fpsInterval, fps. simpl.
  destruct (Qeq_bool f 0) eqn:E.
  { apply Qeq_bool_iff in E. lra. }
  eexists. split; [reflexivity |].
  split; [apply Qred_correct |].
  rewrite Qred_correct. apply Qlt_shift_div_l; lra.
Qed.

Lemma limitFrameRate_loop_budget (T y t : Q) (w : World (Limiter U)) :
  fpsInterval fps_arg = Fin y -> (0 < y)%Q -> (t <= T)%Q ->
  within_budget T y w ->
  within_budget T y (run_callback (loop (Fin t)) w).
Proof.
  intros Hy Hpos Ht (L & HL & Hc & HT).
  destruct (limitFrameRate_loop_run renderFunction fps_arg (Fin t) w) as [_ H].
  rewrite HL, Hy in H.
  destruct (gt (sub (Fin t) (Fin L)) (Fin y)) eqn:Hgt.
  - destruct H as (Hl' & Hc' & _).
    destruct (pace_step_pos Hpos Hgt) as (l' & k & Hs & Hk & Hl & Hle & _).
    exists l'. split; [rewrite Hl'; exact Hs |]. split; [| lra].
    rewrite Hc', Nat2Z.inj_succ, <- Z.add_1_r, inject_Z_plus.
    assert (Hk' : (1 <= inject_Z k)%Q).
    { change 1%Q with (inject_Z 1). rewrite <- Zle_Qle. exact Hk. }
    assert (Hyk : (y * 1 <= y * inject_Z k)%Q).
    { apply Qmult_le_l; assumption. }
    set (X := (y * inject_Z k)%Q) in *. clearbody X.
    set (n := inject_Z (Z.of_nat (calls w))) in *. clearbody n.
    assert (Hexp : ((n + inject_Z 1) * y == n * y + y * 1)%Q).
    { change (inject_Z 1) with 1%Q. ring. }
    rewrite Hexp. lra.
  - destruct H as [Hv Hc']. exists L. rewrite Hv, Hc'. auto.
Qed.
End limitFrameRate_rate.

(** The loop of [limitFrameRate] is requested again whatever happens in
    a run. *)
Lemma limiter_after_pending {U} (renderFunction : JS U unit)
  (fps_arg : option num) (u0 : U) (ticks : list num) :
  pending (limiter_after renderFunction fps_arg u0 ticks) = 1%nat.
Proof.
  induction ticks as [| t ticks IH] using rev_ind.
  - unfold limiter_after. simpl frames. rewrite start_limitFrameRate.
    apply (limitFrameRate_loop_run renderFunction fps_arg (Fin 0)).
  - unfold limiter_after in *. rewrite frames_app. simpl frames.
    rewrite frame_one by exact IH.
    apply (limitFrameRate_loop_run renderFunction fps_arg t).
Qed.

Lemma limiter_after_budget {U} (renderFunction : JS U unit) (f T : Q)
  (u0 : U) (ticks : list num) :
  (0 < f)%Q -> (0 <= T)%Q -> Forall (upto T) ticks ->
  exists y, (y == 1000 / f)%Q /\
            within_budget T y
              (limiter_after renderFunction (Some (Fin f)) u0 ticks).
Proof.
  intros Hf HT Hall.
  destruct (fpsInterval_pos Hf) as (y & Hy & Heq & Hpos).
  exists y. split; [exact Heq |].
  induction ticks as [| t ticks IH] using rev_ind.
  - unfold limiter_after. simpl frames. rewrite start_limitFrameRate.
    apply (limitFrameRate_loop_budget renderFunction Hy Hpos HT).
    exists 0%Q. simpl. split; [reflexivity |]. split; [| exact HT].
    rewrite Qmult_0_l. apply Qle_refl.
  - apply Forall_app in Hall as [Hall Ht]. apply Forall_inv in Ht.
    specialize (IH Hall).
    destruct t as [t | | |]; simpl in Ht; try contradiction.
    unfold limiter_after in *. rewrite frames_app. simpl frames.
    rewrite frame_one by apply (limiter_after_pending renderFunction).
    apply (limitFrameRate_loop_budget renderFunction Hy Hpos Ht).
    destruct IH as (L & HL & Hc & HLT). exists L. simpl. auto.
Qed.

(** Whole numbers in the number model. *)
Lemma Fin_ms (l : Q) (z : Z) :
  Qred l = l -> (l == inject_Z z)%Q -> Fin l = ms z.
Proof.
  intros Hr He. unfold ms. f_equal. rewrite <- Hr.
  rewrite (Qred_complete _ _ He). apply Qcanon.Qred_identity.
  simpl. apply Z.gcd_1_r.
Qed.

Lemma sub_reduced (a b : num) (l : Q) : sub a b = Fin l -> Qred l = l.
Proof.
  destruct a as [x | | |], b as [y | | |]; simpl; try discriminate.
  intros H. injection H as <-. apply Qred_complete, Qred_correct.
Qed.

(** When [fps] is a whole number that divides 1000, the interval is the
    whole number [1000 / fps]. *)
Lemma whole_interval (n : Z) :
  (0 < n)%Z -> Z.divide n 1000 ->
  (0 < inject_Z n)%Q /\ (1000 / inject_Z n == inject_Z (1000 / n))%Q.
Proof.
  intros Hn [c Hc].
  assert (Hpos : (0 < inject_Z n)%Q).
  { change 0%Q with (inject_Z 0). rewrite <- Zlt_Qlt. exact Hn. }
  split; [exact Hpos |].
  change 1000%Q with (inject_Z 1000). rewrite Hc.
  rewrite Z.div_mul by lia. rewrite inject_Z_mult. field. lra.
Qed.

Lemma upto_ms (T : Z) (ticks : list Z) :
  Forall (fun t => exact_ms t /\ (t <= T)%Z) ticks ->
  Forall (upto (inject_Z T)) (List.map ms ticks).
Proof.
  induction 1 as [| t ticks [_ Ht] _ IH]; simpl; constructor.
  - simpl. rewrite <- Zle_Qle. exact Ht.
  - exact IH.
Qed.

(** X1: when [fps] is a whole number that divides 1000 and the refresh
    timestamps are whole milliseconds from 0 to 2^53 (the inputs on
    which every difference and remainder the loop takes is a whole
    number that doubles hold exactly), then, however the refreshes fall,
    if none is later than [T] ms, [renderFunction] has been entered at
    most [T / (1000 / fps)] times: the limiter never renders faster than
    the rate asked for. *)
Theorem limitFrameRate_rate_bound {U} (renderFunction : JS U unit) (n T : Z)
  (u0 : U) (ticks : list Z) :
  (0 < n)%Z -> Z.divide n 1000 -> exact_ms T ->
  Forall (fun t => exact_ms t /\ (t <= T)%Z) ticks ->
  (Z.of_nat (calls (limiter_after renderFunction (Some (ms n)) u0
                      (List.map ms ticks)))
   * (1000 / n) <= T)%Z.
Proof.
  intros Hn Hdiv [HT _] Hall.
  destruct (whole_interval Hn Hdiv) as [Hf Hy].
  assert (HT' : (0 <= inject_Z T)%Q).
  { change 0%Q with (inject_Z 0). rewrite <- Zle_Qle. exact HT. }
  destruct (limiter_after_budget renderFunction u0 Hf HT' (upto_ms Hall))
    as (y & Heq & L & _ & Hc & HL).
  rewrite Zle_Qle, inject_Z_mult, <- Hy, <- Heq.
  set (c := inject_Z (Z.of_nat (calls _))) in *. clearbody c.
  set (X := (c * y)%Q) in *. clearbody X.
  apply (Qle_trans _ L); assumption.
Qed.

(** At 50 fps, sixty refreshes a second for 100 ms: no more than five
    renders. *)
Lemma limitFrameRate_rate_bound_witness :
  let ticks := [16; 33; 50; 66; 83; 100]%Z in
  (0 < 50)%Z /\ Z.divide 50 1000 /\ exact_ms 100 /\
  Forall (fun t => exact_ms t /\ (t <= 100)%Z) ticks /\
  (Z.of_nat (calls (limiter_after counting (Some (ms 50)) 0%nat
                      (List.map ms ticks)))
   * (1000 / 50) <= 100)%Z.
Proof.
  assert (H0 : (0 < 50)%Z) by lia.
  assert (H1 : Z.divide 50 1000) by (exists 20%Z; reflexivity).
  assert (H2 : exact_ms 100) by (unfold exact_ms; lia).
  assert (H3 : Forall (fun t => exact_ms t /\ (t <= 100)%Z)
                 [16; 33; 50; 66; 83; 100]%Z).
  { repeat constructor; unfold exact_ms; lia. }
  split; [exact H0 | split; [exact H1 | split; [exact H2 | split;
    [exact H3 |]]]].
  exact (@limitFrameRate_rate_bound nat counting 50 100 0%nat _ H0 H1 H2 H3).
Defined.

(** X2: when [fps] is a whole number that divides 1000, and [lastTime]
    and the timestamp are whole milliseconds from 0 to 2^53, an accepted
    tick moves [lastTime] forward by a whole number of intervals, at
    least one, to the last such point not after the tick: the pace does
    not drift with the jitter of the refreshes, and [lastTime] is again
    a whole number. *)
Theorem limitFrameRate_accept_phase {U} (renderFunction : JS U unit)
  (n t L : Z) (w : World (Limiter U)) :
  (0 < n)%Z -> Z.divide n 1000 -> exact_ms t -> exact_ms L ->
  lastTime (vars w) = ms L ->
  accepts renderFunction (Some (ms n)) (ms t) w = true ->
  exists k : Z,
    (1 <= k)%Z /\
    lastTime (vars (run_callback
      (limitFrameRate_loop renderFunction (Some (ms n)) (ms t)) w)) =
    ms (L + 1000 / n * k) /\
    (L + 1000 / n * k <= t < L + 1000 / n * (k + 1))%Z.
Proof.
  intros Hn Hdiv _ _ HL Hacc.
  destruct (whole_interval Hn Hdiv) as [Hf Hi].
  destruct (fpsInterval_pos Hf) as (y & Hy & Heq & Hpos).
  unfold ms in HL, Hacc |- *.
  rewrite accepts_gt, HL, Hy in Hacc.
  destruct (limitFrameRate_loop_run renderFunction (Some (Fin (inject_Z n)))
              (Fin (inject_Z t)) w) as [_ H].
  rewrite HL, Hy, Hacc in H. destruct H as (Hl' & _).
  destruct (pace_step_pos Hpos Hacc) as (l' & k & Hs & Hk & Hl & Hle & Hlt).
  assert (Hwhole : (l' == inject_Z (L + 1000 / n * k))%Q).
  { rewrite inject_Z_plus, inject_Z_mult, <- Hi, <- Heq. exact Hl. }
  exists k. split; [exact Hk |]. split.
  - rewrite Hl', Hs. apply Fin_ms; [| exact Hwhole].
    apply (sub_reduced Hs).
  - rewrite Hwhole in Hle, Hlt. rewrite Heq, Hi in Hlt.
    rewrite <- inject_Z_plus in Hlt.
    rewrite <- Zle_Qle in Hle. rewrite <- Zlt_Qlt in Hlt. lia.
Qed.

(** At 50 fps (20 ms): from [lastTime = 0] the tick at 45 ms is accepted
    and [lastTime] becomes 40. *)
Lemma limitFrameRate_accept_phase_witness :
  let w := boot (mkLimiter (ms 0) 0%nat) in
  (0 < 50)%Z /\ Z.divide 50 1000 /\ exact_ms 45 /\ exact_ms 0 /\
  accepts counting (Some (ms 50)) (ms 45) w = true /\
  exists k : Z,
    (1 <= k)%Z /\
    lastTime (vars (run_callback
      (limitFrameRate_loop counting (Some (ms 50)) (ms 45)) w)) =
    ms (0 + 1000 / 50 * k) /\
    (0 + 1000 / 50 * k <= 45 < 0 + 1000 / 50 * (k + 1))%Z.
Proof.
  assert (H0 : (0 < 50)%Z) by lia.
  assert (H1 : Z.divide 50 1000) by (exists 20%Z; reflexivity).
  assert (H2 : exact_ms 45) by (unfold exact_ms; lia).
  assert (H3 : exact_ms 0) by (unfold exact_ms; lia).
  split; [exact H0 | split; [exact H1 | split; [exact H2 | split;
    [exact H3 | split; [reflexivity |]]]]].
  exact (@limitFrameRate_accept_phase nat counting 50 45 0
           (boot (mkLimiter (ms 0) 0%nat)) H0 H1 H2 H3 eq_refl eq_refl).
Defined.

(** A skipped tick only adds the request for the next frame. *)
Lemma limitFrameRate_loop_skip {U} (renderFunction : JS U unit)
  (fps_arg : option num) (time : num) (w : World (Limiter U)) :
  gt (sub time (lastTime (vars w))) (fpsInterval fps_arg) = false ->
  run_callback (limitFrameRate_loop renderFunction fps_arg time) w =
  mkWorld (vars w) (S (pending w)) (calls w) (reported w).
Proof.
  intros H. unfold run_callback, limitFrameRate_loop.
  unfold bind, requestAnimationFrame, read, gets, modify, ret.
  cbn -[gt sub rem fpsInterval]. rewrite H. reflexivity.
Qed.

Lemma gt_NaN_interval (fps_arg : option num) (a : num) :
  fps fps_arg = NaN -> gt a (fpsInterval fps_arg) = false.
Proof.
  unfold fpsInterval. intros ->. destruct a; reflexivity.
Qed.

(** X3: with [fps = NaN] the interval [1000 / fps] is NaN, every
    comparison with it is false and no tick is ever accepted, whatever
    the timestamps: [renderFunction] never runs, [lastTime] stays 0 and
    nothing is reported, yet the loop goes on requesting frames. *)
Theorem limitFrameRate_NaN_fps_never_renders {U} (renderFunction : JS U unit)
  (fps_arg : option num) (u0 : U) (ticks : list num) :
  fps fps_arg = NaN ->
  limiter_after renderFunction fps_arg u0 ticks =
  mkWorld (mkLimiter (Fin 0) u0) 1 0 [].
Proof.
  intros Hfps.
  induction ticks as [| t ticks IH] using rev_ind.
  - unfold limiter_after. simpl frames. rewrite start_limitFrameRate.
    rewrite limitFrameRate_loop_skip by (apply gt_NaN_interval; exact Hfps).
    reflexivity.
  - unfold limiter_after in *. rewrite frames_app, IH. simpl frames.
    unfold frame. simpl.
    rewrite limitFrameRate_loop_skip by (apply gt_NaN_interval; exact Hfps).
    reflexivity.
Qed.

Lemma limitFrameRate_NaN_fps_never_renders_witness :
  fps (Some NaN) = NaN /\
  calls (limiter_after counting (Some NaN) 0%nat [Fin 16; Fin 1000000]) =
  0%nat.
Proof.
  split; [reflexivity |].
  exact (f_equal (@calls _)
           (@limitFrameRate_NaN_fps_never_renders nat counting
              (Some NaN) 0%nat [Fin 16; Fin 1000000] eq_refl)).
Defined.

Lemma limiter_frames_calls {U} (renderFunction : JS U unit)
  (fps_arg : option num) (ticks : list num) :
  forall w : World (Limiter U),
    pending w = 1%nat ->
    calls (frames (limitFrameRate_loop renderFunction fps_arg) ticks w) =
    (calls w +
     length (List.filter (fun b => b)
               (pacing (fpsInterval fps_arg) (lastTime (vars w)) ticks)))%nat.
Proof.
  induction ticks as [| t ticks IH]; intros w Hp; simpl.
  - lia.
  - rewrite frame_one by exact Hp.
    set (v := mkWorld (vars w) 0 (calls w) (reported w)).
    destruct (limitFrameRate_loop_run renderFunction fps_arg t v) as [Hp' H].
    rewrite (IH _ Hp'). subst v. simpl in *.
    destruct (gt (sub t (lastTime (vars w))) (fpsInterval fps_arg)).
    + destruct H as (Hl & Hc & _). rewrite Hl, Hc. simpl. lia.
    + destruct H as [Hv Hc]. rewrite Hv, Hc. simpl. lia.
Qed.

(** X4: errors of [renderFunction] change nothing to the pacing.  After
    the construction and any refreshes the loop is requested once, and
    the number of times [renderFunction] was entered is the number of
    ticks the pacing rule accepts among the construction's [loop(0)] and
    the refreshes; the rule looks at timestamps only, because [lastTime]
    is assigned before [renderFunction] runs. *)
Theorem limitFrameRate_pacing_ignores_errors {U} (renderFunction : JS U unit)
  (fps_arg : option num) (u0 : U) (ticks : list num) :
  let w := limiter_after renderFunction fps_arg u0 ticks in
  pending w = 1%nat /\
  calls w =
  length (List.filter (fun b => b)
            (pacing (fpsInterval fps_arg) (Fin 0) (Fin 0 :: ticks))).
Proof.
  split; [apply limiter_after_pending |].
  unfold limiter_after. rewrite limiter_frames_calls.
  2: { rewrite start_limitFrameRate.
       apply (limitFrameRate_loop_run renderFunction fps_arg (Fin 0)). }
  rewrite start_limitFrameRate.
  unfold boot. cbn [vars outside pending calls reported].
  destruct (limitFrameRate_loop_run renderFunction fps_arg (Fin 0)
              (mkWorld (mkLimiter (Fin 0) u0) 0 0 [])) as [_ H].
  cbn [vars lastTime calls outside] in H. cbn [pacing].
  destruct (gt (sub (Fin 0) (Fin 0)) (fpsInterval fps_arg)).
  - destruct H as (Hl & Hc & _). rewrite Hl, Hc. reflexivity.
  - destruct H as [Hv Hc]. rewrite Hv, Hc. reflexivity.
Qed.

(** ** [dynamicResolutionScaling]: the dead band, and the renderer *)

Lemma in_band_adjustment (base fps : num) :
  in_band fps -> adjustment base fps = [].
Proof.
  unfold adjustment, lt. destruct fps as [q | | |]; simpl; try tauto.
  intros [H30 H50].
  destruct (Qgtb 30 q) eqn:E1.
  { apply Qgtb_lt in E1. lra. }
  destruct (Qgtb q 50) eqn:E2.
  { apply Qgtb_lt in E2. lra. }
  reflexivity.
Qed.

(** The renderer's pixel ratio is the value last given to
    [setPixelRatio]. *)
Lemma scaler_loop_pixelRatio (p0 : num) (w : World Scaler) :
  pixelRatio (renderer (vars w)) = List.last (ratios w) p0 ->
  let w' := run_callback dynamicResolutionScaling_loop w in
  pixelRatio (renderer (vars w')) = List.last (ratios w') p0.
Proof.
  intros H. run_scaler.
  destruct (lt (stats_fps (vars w)) (Fin 30)); [| destruct (gt _ _)];
    cbn -[lt gt Math_max Math_min sub add or_else];
    rewrite ?last_last; auto.
Qed.

Lemma scaler_after_pixelRatio (p0 dpr fps0 : num) (env : list (num * num)) :
  let w := scaler_after p0 dpr fps0 env in
  pixelRatio (renderer (vars w)) = List.last (ratios w) p0.
Proof.
  unfold scaler_after.
  set (w0 := start dynamicResolutionScaling _).
  assert (H0 : pending w0 = 1%nat /\
               pixelRatio (renderer (vars w0)) = List.last (ratios w0) p0).
  { subst w0. unfold start, boot. run_scaler.
    destruct (lt fps0 (Fin 30)); [| destruct (gt _ _)];
      cbn -[lt gt Math_max Math_min sub add or_else]; auto. }
  clearbody w0. revert w0 H0.
  induction env as [| e env IH]; intros w0 [Hp Hr]; simpl; [exact Hr |].
  apply IH. rewrite frame_one by exact Hp.
  set (v := mkWorld _ 0 _ _).
  destruct (dynamicResolutionScaling_loop_run v) as (Hp' & _).
  split; [exact Hp' |]. apply scaler_loop_pixelRatio. exact Hr.
Qed.

(** X5: the renderer's pixel ratio is always the ratio the scaler applied
    last, or the one it had at setup when the scaler has applied none;
    and while every reading stays between 30 and 50 fps inclusive the
    scaler applies nothing, so the renderer keeps its ratio. *)
Theorem dynamicResolutionScaling_dead_band (p0 dpr fps0 : num)
  (env : list (num * num)) :
  let w := scaler_after p0 dpr fps0 env in
  pixelRatio (renderer (vars w)) = List.last (ratios w) p0 /\
  (Forall in_band (fps0 :: map snd env) ->
   ratios w = [] /\ pixelRatio (renderer (vars w)) = p0).
Proof.
  split; [apply scaler_after_pixelRatio |].
  intros Hband.
  destruct (scaler_after_ratios p0 dpr fps0 env) as (_ & _ & Hr).
  assert (Hnil : ratios (scaler_after p0 dpr fps0 env) = []).
  { rewrite Hr. clear Hr.
    induction Hband as [| fps l Hf _ IH]; [reflexivity |].
    simpl. rewrite (in_band_adjustment _ Hf). exact IH. }
  split; [exact Hnil |].
  rewrite scaler_after_pixelRatio, Hnil. reflexivity.
Qed.

(** Readings of exactly 30 and 50 fps and one of 40 leave a ratio of 3
    alone. *)
Lemma dynamicResolutionScaling_dead_band_witness :
  Forall in_band (Fin 30 :: map snd [(Fin 3, Fin 50); (Fin 3, Fin 40)]) /\
  pixelRatio (renderer (vars
    (scaler_after (Fin 3) (Fin 3) (Fin 30) [(Fin 3, Fin 50); (Fin 3, Fin 40)]))) =
  Fin 3.
Proof.
  assert (H : Forall in_band
                (Fin 30 :: map snd [(Fin 3, Fin 50); (Fin 3, Fin 40)])).
  { repeat constructor; vm_compute; discriminate. }
  split; [exact H |].
  exact (proj2 (proj2
    (@dynamicResolutionScaling_dead_band (Fin 3) (Fin 3) (Fin 30)
       [(Fin 3, Fin 50); (Fin 3, Fin 40)]) H)).
Defined.

(** ** [manageResourceIntensiveObjects]: the array as a set *)

Section Culling_order.
Variables Matrix4 Frustum Pose Geometry Material Volume : Type.
Variable updateMatrixWorld : Camera Matrix4 Pose -> Camera Matrix4 Pose.
Variable getInverse : Matrix4 -> Matrix4.
Variable multiplyMatrices : Matrix4 -> Matrix4 -> Matrix4.
Variable setFromProjectionMatrix : Matrix4 -> Frustum.
Variable boundingVolume : Geometry -> Matrix4 -> Volume.
Variable intersectsVolume : Frustum -> Volume -> bool.

Local Abbreviation St := (Culler Matrix4 Frustum Pose Geometry Material).
Local Abbreviation upd :=
  (update (Material := Material) updateMatrixWorld getInverse multiplyMatrices
     setFromProjectionMatrix boundingVolume intersectsVolume).

(** X6: what an [update] does to the objects depends on the array only
    through the set of objects it refers to: two arrays with the same
    members, in any order and with any repetitions, give the same
    objects, from the same camera and objects.  In particular, with an
    empty array no object is touched. *)
Theorem update_array_as_set (w1 w2 : World St) :
  camera (vars w1) = camera (vars w2) ->
  heap (vars w1) = heap (vars w2) ->
  (forall l, l ∈ objects (vars w1) <-> l ∈ objects (vars w2)) ->
  heap (vars (fst (upd w1))) = heap (vars (fst (upd w2))) /\
  (objects (vars w1) = [] -> heap (vars (fst (upd w1))) = heap (vars w1)).
Proof.
  intros Hcam Hheap Hset.
  destruct (update_run updateMatrixWorld getInverse multiplyMatrices
              setFromProjectionMatrix boundingVolume intersectsVolume w1)
    as (h1 & Hrun1 & Hh1).
  destruct (update_run updateMatrixWorld getInverse multiplyMatrices
              setFromProjectionMatrix boundingVolume intersectsVolume w2)
    as (h2 & Hrun2 & Hh2).
  rewrite Hrun1, Hrun2. simpl. split.
  - apply map_eq. intros l. rewrite Hh1, Hh2, Hcam, Hheap.
    destruct (decide (l ∈ objects (vars w1))) as [H1 | H1];
      destruct (decide (l ∈ objects (vars w2))) as [H2 | H2];
      try reflexivity; exfalso; apply Hset in H1 || apply Hset in H2;
      contradiction.
  - intros Hnil. apply map_eq. intros l. rewrite Hh1, Hnil.
    destruct (decide (l ∈ [])) as [Hin |]; [inversion Hin | reflexivity].
Qed.
End Culling_order.

Lemma update_array_as_set_witness :
  camera (vars Line.world) = camera (vars line_world_reordered) /\
  heap (vars Line.world) = heap (vars line_world_reordered) /\
  (forall l, l ∈ objects (vars Line.world) <->
             l ∈ objects (vars line_world_reordered)) /\
  heap (vars (fst (Line.update Line.world))) =
  heap (vars (fst (Line.update line_world_reordered))).
Proof.
  assert (Hset : forall l : positive,
             l ∈ objects (vars Line.world) <->
             l ∈ objects (vars line_world_reordered)).
  { intros l. simpl. rewrite !elem_of_cons, elem_of_nil. tauto. }
  split; [reflexivity | split; [reflexivity | split; [exact Hset |]]].
  exact (proj1
    (@update_array_as_set Z Z unit Z string (Z * Z)
       Line.updateMatrixWorld Line.getInverse Line.multiplyMatrices
       Line.setFromProjectionMatrix Line.boundingVolume Line.intersectsVolume
       Line.world line_world_reordered eq_refl eq_refl Hset)).
Defined.

(** ** Loops that request the next frame last *)

(** A loop with no request pending never runs again. *)
Lemma frames_dead {C} (loop : num -> JS (World C) unit) (ticks : list num)
  (w : World C) :
  pending w = 0%nat -> frames loop ticks w = w.
Proof.
  intros Hp. induction ticks as [| t ticks IH]; [reflexivity |].
  simpl. unfold frame. rewrite Hp. simpl.
  destruct w as [c p n r]. simpl in Hp. subst p. exact IH.
Qed.

Section animate_facts.
Context {U : Type}.
Variable TWEEN_update : JS U unit.
Variable customAnimations : num -> JS U unit.

Local Abbreviation loop := (animate_loop TWEEN_update (Some customAnimations)).

Lemma animate_loop_ok (time : num) (w : World U) :
  snd (customAnimations time (vars w)) = Ok tt ->
  snd (TWEEN_update (fst (customAnimations time (vars w)))) = Ok tt ->
  run_callback (loop time) w =
  mkWorld (animate_step TWEEN_update customAnimations (vars w) time)
    (S (pending w)) (S (S (calls w))) (reported w).
Proof.
  unfold run_callback, animate_loop, animate_step. run_js.
  destruct (customAnimations time (vars w)) as [u1 r1]. simpl.
  intros ->. destruct (TWEEN_update u1) as [u2 r2]. simpl. intros ->.
  reflexivity.
Qed.

Lemma animate_loop_throws (time : num) (w : World U) (e : exn) :
  snd (customAnimations time (vars w)) = Threw e ->
  run_callback (loop time) w =
  mkWorld (fst (customAnimations time (vars w))) (pending w) (S (calls w))
    (reported w ++ [e]).
Proof.
  unfold run_callback, animate_loop. run_js.
  destruct (customAnimations time (vars w)) as [u1 r1]. simpl.
  intros ->. reflexivity.
Qed.

(** X7: [animate] runs nothing when called, only requests the first
    frame.  While neither [customAnimations] nor [TWEEN.update] throws,
    every refresh calls [customAnimations] with that refresh's timestamp
    and then [TWEEN.update], in the order of the refreshes, and requests
    the next frame; nothing is reported. *)
Theorem animate_passes_timestamps (u0 : U) (ticks : list num) :
  (forall t u, snd (customAnimations t u) = Ok tt) ->
  (forall u, snd (TWEEN_update u) = Ok tt) ->
  start (animate (U := U)) (boot u0) = mkWorld u0 1 0 [] /\
  frames loop ticks (start (animate (U := U)) (boot u0)) =
  mkWorld (fold_left (animate_step TWEEN_update customAnimations) ticks u0)
    1 (2 * length ticks) [].
Proof.
  intros Hc Ht. split; [reflexivity |].
  change (start (animate (U := U)) (boot u0)) with (mkWorld u0 1 0 []).
  assert (H : forall w : World U,
             pending w = 1%nat ->
             frames loop ticks w =
             mkWorld (fold_left (animate_step TWEEN_update customAnimations)
                        ticks (vars w))
               1 (calls w + 2 * length ticks) (reported w)).
  { induction ticks as [| t ticks IH]; intros w Hp; simpl.
    - destruct w as [c p n r]. simpl in *. subst p. f_equal. lia.
    - rewrite frame_one by exact Hp.
      rewrite animate_loop_ok by (simpl; auto).
      rewrite IH by reflexivity. simpl. f_equal. lia. }
  rewrite H by reflexivity. reflexivity.
Qed.

(** X8: [animate] requests the next frame after the work.  If
    [customAnimations] throws during a refresh, [TWEEN.update] is skipped
    in that refresh, the error is reported, no frame is requested, and
    no later refresh runs anything. *)
Theorem animate_stops_after_error (w : World U) (time : num) (e : exn)
  (later : list num) :
  pending w = 1%nat ->
  snd (customAnimations time (vars w)) = Threw e ->
  let w' := frame loop time w in
  w' = mkWorld (fst (customAnimations time (vars w))) 0 (S (calls w))
         (reported w ++ [e]) /\
  frames loop later w' = w'.
Proof.
  intros Hp He. simpl.
  assert (Hw : frame loop time w =
               mkWorld (fst (customAnimations time (vars w))) 0 (S (calls w))
                 (reported w ++ [e])).
  { rewrite frame_one by exact Hp.
    rewrite (animate_loop_throws (e := e)) by exact He. reflexivity. }
  split; [exact Hw |]. apply frames_dead. rewrite Hw. reflexivity.
Qed.
End animate_facts.

(** The timestamps of three refreshes reach the callback in order. *)
Lemma animate_passes_timestamps_witness :
  (forall t u, snd (record_time t u) = Ok tt) /\
  (forall u : list num, snd (ret (S := list num) tt u) = Ok tt) /\
  vars (frames (animate_loop (ret tt) (Some record_time))
          [Fin 16; Fin 33; Fin 50] (start animate (boot []))) =
  [Fin 16; Fin 33; Fin 50].
Proof.
  assert (H1 : forall t (u : list num), snd (record_time t u) = Ok tt).
  { intros t u. reflexivity. }
  assert (H2 : forall u : list num, snd (ret (S := list num) tt u) = Ok tt).
  { intros u. reflexivity. }
  split; [exact H1 | split; [exact H2 |]].
  exact (f_equal (@vars _)
           (proj2 (@animate_passes_timestamps (list num) (ret tt) record_time
                     [] [Fin 16; Fin 33; Fin 50] H1 H2))).
Defined.

(** A callback failing at 33 ms: the refresh at 50 ms is never seen. *)
Lemma animate_stops_after_error_witness :
  let loop := animate_loop (ret tt) (Some (record_time_failing 33)) in
  let w := frames loop [Fin 16] (start animate (boot [])) in
  pending w = 1%nat /\
  snd (record_time_failing 33 (Fin 33) (vars w)) = Threw "animation failed" /\
  vars (frames loop [Fin 50; Fin 66] (frame loop (Fin 33) w)) =
  [Fin 16; Fin 33].
Proof.
  split; [reflexivity | split; [reflexivity |]].
  pose proof (@animate_stops_after_error (list num) (ret tt)
                (record_time_failing 33)
                (frames (animate_loop (ret tt) (Some (record_time_failing 33)))
                   [Fin 16] (start animate (boot [])))
                (Fin 33) "animation failed" [Fin 50; Fin 66] eq_refl eq_refl)
    as [Hw Hlater].
  simpl in Hlater. exact (f_equal (@vars _) Hlater).
Defined.

Section renderWithComposer_facts.
Context {U : Type}.
Variable composer_render : JS U unit.
Variable customRender : option (JS U unit).

Local Abbreviation render :=
  (renderWithComposer_render composer_render customRender).
Local Abbreviation work := (composer_work composer_render customRender).

(** One run of [render]: the work, and then the request if the work
    returned. *)
Lemma renderWithComposer_render_run (w : World U) :
  let w' := run_callback render w in
  vars w' = fst (work (vars w)) /\
  match snd (work (vars w)) with
  | Ok _ => pending w' = S (pending w) /\ reported w' = reported w
  | Threw e => pending w' = pending w /\ reported w' = reported w ++ [e]
  end.
Proof.
  unfold run_callback, renderWithComposer_render, composer_work.
  destruct customRender as [f |]; run_js.
  - destruct (f (vars w)) as [u1 [[] | e1]]; simpl; [| auto].
    destruct (composer_render u1) as [u2 [[] | e2]]; simpl; auto.
  - destruct (composer_render (vars w)) as [u2 [[] | e2]]; simpl; auto.
Qed.

(** X9: while the work of a frame (the optional [customRender], then
    [composer.render]) does not throw, [renderWithComposer] does it once
    when called and once per refresh, each time on the state the previous
    one left, and always has the next frame requested. *)
Theorem renderWithComposer_renders_every_frame (u0 : U) (ticks : list num) :
  (forall u, snd (work u) = Ok tt) ->
  let w :=
    frames (fun _ => render) ticks
      (start (renderWithComposer composer_render customRender) (boot u0)) in
  vars w = Nat.iter (S (length ticks)) (fun u => fst (work u)) u0 /\
  pending w = 1%nat /\ reported w = [].
Proof.
  intros Hok.
  assert (Hstep : forall w : World U,
             let w' := run_callback render w in
             vars w' = fst (work (vars w)) /\ pending w' = S (pending w) /\
             reported w' = reported w).
  { intros w. destruct (renderWithComposer_render_run w) as [Hv H].
    rewrite Hok in H. cbv beta iota zeta in *. tauto. }
  assert (H : forall (w : World U),
             pending w = 1%nat ->
             let w' := frames (fun _ => render) ticks w in
             vars w' = Nat.iter (length ticks) (fun u => fst (work u)) (vars w)
             /\ pending w' = 1%nat /\ reported w' = reported w).
  { induction ticks as [| t ticks IH]; intros w Hp; simpl; [auto |].
    rewrite frame_one by exact Hp.
    destruct (Hstep (mkWorld (vars w) 0 (calls w) (reported w)))
      as (Hv & Hp' & Hr).
    cbn [vars pending calls reported] in Hv, Hp', Hr.
    destruct (IH _ Hp') as (IHv & IHp & IHr).
    rewrite IHv, IHr, Hv, Hr.
    split; [| auto].
    exact (Nat.iter_swap (length ticks) U (fun u => fst (work u)) (vars w)). }
  destruct (Hstep (boot u0)) as (Hv & Hp & Hr).
  cbn [boot vars pending calls reported] in Hv, Hp, Hr.
  destruct (H _ Hp) as (Hv' & Hp' & Hr').
  cbv zeta. unfold start, renderWithComposer.
  rewrite Hv', Hp', Hr', Hv, Hr.
  split; [| auto].
  exact (Nat.iter_swap (length ticks) U (fun u => fst (work u)) u0).
Qed.

(** X10: if the work of a refresh throws, [renderWithComposer] has made no
    request for the next frame: the error is reported once and no later
    refresh does anything. *)
Theorem renderWithComposer_stops_for_good (w : World U) (time : num) (e : exn)
  (later : list num) :
  pending w = 1%nat ->
  snd (work (vars w)) = Threw e ->
  let w' := frame (fun _ => render) time w in
  vars w' = fst (work (vars w)) /\ pending w' = 0%nat /\
  reported w' = reported w ++ [e] /\
  frames (fun _ => render) later w' = w'.
Proof.
  intros Hp He. simpl. rewrite frame_one by exact Hp.
  set (v := mkWorld (vars w) 0 (calls w) (reported w)).
  destruct (renderWithComposer_render_run v) as [Hv H].
  subst v. simpl in *. rewrite He in H. destruct H as [Hp' Hr].
  split; [exact Hv |]. split; [exact Hp' |]. split; [exact Hr |].
  apply frames_dead. exact Hp'.
Qed.
End renderWithComposer_facts.

(** With a counting [customRender], three renders after two refreshes. *)
Lemma renderWithComposer_renders_every_frame_witness :
  (forall u, snd (composer_work (ret tt) (Some counting) u) = Ok tt) /\
  vars (frames (fun _ => renderWithComposer_render (ret tt) (Some counting))
          [Fin 16; Fin 33]
          (start (renderWithComposer (ret tt) (Some counting)) (boot 0%nat))) =
  3%nat.
Proof.
  assert (H : forall u, snd (composer_work (ret tt) (Some counting) u) = Ok tt).
  { intros u. reflexivity. }
  split; [exact H |].
  exact (proj1 (@renderWithComposer_renders_every_frame nat (ret tt)
                  (Some counting) 0%nat [Fin 16; Fin 33] H)).
Defined.

(** A [customRender] that fails on its second run. *)
Lemma renderWithComposer_stops_for_good_witness :
  let render := renderWithComposer_render (ret tt) (Some (failing_at 1)) in
  let w := start (renderWithComposer (ret tt) (Some (failing_at 1))) (boot 0%nat) in
  pending w = 1%nat /\
  snd (composer_work (ret tt) (Some (failing_at 1)) (vars w)) =
  Threw "render failed" /\
  pending (frame (fun _ => render) (Fin 16) w) = 0%nat.
Proof.
  split; [reflexivity | split; [reflexivity |]].
  exact (proj1 (proj2
    (@renderWithComposer_stops_for_good nat (ret tt) (Some (failing_at 1))
       (start (renderWithComposer (ret tt) (Some (failing_at 1))) (boot 0%nat))
       (Fin 16) "render failed" [] eq_refl eq_refl))).
Defined.

(** ** scene module *)

Section Scene_facts.
Variables Texture GeometryRef MaterialRef : Type.
Variable Object3D_remove :
  SceneObject GeometryRef MaterialRef ->
  list (SceneObject GeometryRef MaterialRef) ->
  list (SceneObject GeometryRef MaterialRef).
(** What the library's [remove] does when the object is the first
    child. *)
Hypothesis remove_head : forall x l, Object3D_remove x (x :: l) = l.

Local Abbreviation Sc := (Scene Texture GeometryRef MaterialRef).
Local Abbreviation remove1 :=
  (removeObjectFromScene (Texture := Texture) Object3D_remove).
Local Abbreviation clear := (clearScene (Texture := Texture) Object3D_remove).

Lemma forEach_dispose (ms : list MaterialRef) :
  forall s : Sc,
    forEach ms (fun mat => dispose (DisposeMaterial GeometryRef mat)) s =
    (mkScene (background s) (environment s) (children s)
       (disposals s ++ map (@DisposeMaterial GeometryRef MaterialRef) ms),
     Ok tt).
Proof.
  induction ms as [| m ms IH]; intros s; simpl.
  - rewrite app_nil_r. destruct s; reflexivity.
  - unfold bind, dispose at 1, modify. rewrite IH. simpl.
    rewrite <- app_assoc. reflexivity.
Qed.

Lemma removeObjectFromScene_ok (object : SceneObject GeometryRef MaterialRef)
  (s : Sc) :
  has_geometry object ->
  remove1 object s =
  (mkScene (background s) (environment s)
     (Object3D_remove object (children s))
     (disposals s ++ disposals_of object),
   Ok tt).
Proof.
  intros [g Hg]. unfold removeObjectFromScene, disposals_of. rewrite Hg.
  unfold bind, scene_remove, dispose, modify, ret. simpl.
  destruct (object_material object) as [| m | ms]; simpl.
  - rewrite ?app_nil_r. reflexivity.
  - rewrite <- ?app_assoc. reflexivity.
  - fold (dispose (Texture := Texture) (GeometryRef := GeometryRef)
            (MaterialRef := MaterialRef)).
    rewrite forEach_dispose. simpl. rewrite <- ?app_assoc. reflexivity.
Qed.

Lemma removeObjectFromScene_no_geometry
  (object : SceneObject GeometryRef MaterialRef) (s : Sc) :
  object_geometry object = None ->
  remove1 object s =
  (mkScene (background s) (environment s)
     (Object3D_remove object (children s)) (disposals s),
   Threw "TypeError").
Proof.
  intros Hg. unfold removeObjectFromScene. rewrite Hg. reflexivity.
Qed.

(** X11: when every child of the scene has a geometry, [clearScene]
    terminates (the loop body runs once per child), returns normally, and
    leaves the scene without children, their geometries and materials
    disposed of child by child, in the order of the children. *)
Theorem clearScene_empties (s : Sc) (fuel : nat) :
  Forall has_geometry (children s) ->
  length (children s) < fuel ->
  clear fuel s =
  Some (mkScene (background s) (environment s) []
          (disposals s ++ flat_map disposals_of (children s)),
        Ok tt).
Proof.
  destruct s as [bg env kids ds]. simpl. revert ds fuel.
  induction kids as [| k kids IH]; intros ds fuel Hall Hfuel.
  - destruct fuel as [| fuel]; [lia |]. simpl. rewrite app_nil_r.
    reflexivity.
  - destruct fuel as [| fuel]; [simpl in Hfuel; lia |].
    apply Forall_cons in Hall as [Hk Hall].
    cbn [clearScene children].
    rewrite removeObjectFromScene_ok by exact Hk.
    cbn [children background environment disposals].
    rewrite remove_head, IH by (auto; simpl in Hfuel; lia).
    simpl. rewrite <- app_assoc. reflexivity.
Qed.

(** X12: when some child has no geometry (a light, a group, a camera),
    [clearScene] stops at the first such child with a [TypeError]: the
    children before it are removed and disposed of, that child is removed
    from the scene with nothing disposed, and the children after it stay
    in the scene. *)
Theorem clearScene_stops_at_first_without_geometry (s : Sc) (fuel : nat)
  (before after : list (SceneObject GeometryRef MaterialRef))
  (bad : SceneObject GeometryRef MaterialRef) :
  children s = before ++ bad :: after ->
  Forall has_geometry before ->
  object_geometry bad = None ->
  length before < fuel ->
  clear fuel s =
  Some (mkScene (background s) (environment s) after
          (disposals s ++ flat_map disposals_of before),
        Threw "TypeError").
Proof.
  destruct s as [bg env kids ds]. simpl. intros -> Hall Hbad. revert ds fuel.
  induction before as [| k before IH]; intros ds fuel Hfuel.
  - destruct fuel as [| fuel]; [lia |].
    cbn [clearScene children app].
    rewrite removeObjectFromScene_no_geometry by exact Hbad.
    cbn [children background environment disposals].
    rewrite remove_head, app_nil_r. reflexivity.
  - destruct fuel as [| fuel]; [simpl in Hfuel; lia |].
    apply Forall_cons in Hall as [Hk Hall].
    cbn [clearScene children app].
    rewrite removeObjectFromScene_ok by exact Hk.
    cbn [children background environment disposals].
    rewrite remove_head, IH by (auto; simpl in Hfuel; lia).
    simpl. rewrite <- app_assoc. reflexivity.
Qed.
End Scene_facts.

(** X13: [initScene] tests its options for truthiness and acts on the
    first that passes.  A background colour of 0 (black) counts as
    absent, so the options that follow it are tried instead; and an
    environment map is installed only when there is neither a non-zero
    background colour nor a background texture. *)
Theorem initScene_first_truthy_option {Texture GeometryRef MaterialRef}
  (options : SceneOptions Texture) :
  let scene := initScene GeometryRef MaterialRef options in
  (truthy_number (backgroundColor options) = false ->
   scene =
   initScene GeometryRef MaterialRef
     (mkSceneOptions None (backgroundTexture options)
        (environmentMap options))) /\
  (is_Some (environment scene) ->
   truthy_number (backgroundColor options) = false /\
   backgroundTexture options = None /\
   background scene = None).
Proof.
  unfold initScene. simpl. split.
  - intros ->. reflexivity.
  - destruct (truthy_number (backgroundColor options)).
    + destruct (backgroundColor options); simpl; intros [x Hx]; discriminate.
    + destruct (backgroundTexture options); simpl.
      * intros [x Hx]. discriminate.
      * destruct (environmentMap options); simpl; auto.
Qed.

Lemma Stage_remove_head (x : SceneObject nat nat) l :
  Stage.remove x (x :: l) = l.
Proof.
  unfold Stage.remove. simpl.
  assert (H : Stage.object_eqb x x = true).
  { unfold Stage.object_eqb. destruct (object_geometry x); [| reflexivity].
    apply Nat.eqb_refl. }
  rewrite H. reflexivity.
Qed.

(** Two meshes and a line: all gone, six [dispose] calls. *)
Lemma clearScene_empties_witness :
  let s := Stage.scene_of [Stage.cube; Stage.ball; Stage.line] in
  Forall has_geometry (children s) /\ length (children s) < 4 /\
  clearScene Stage.remove 4 s =
  Some (mkScene None None []
          [DisposeGeometry nat 1%nat; DisposeMaterial nat 10%nat;
           DisposeGeometry nat 2%nat; DisposeMaterial nat 20%nat;
           DisposeMaterial nat 21%nat; DisposeGeometry nat 3%nat],
        Ok tt).
Proof.
  assert (Hall : Forall has_geometry
                   (children (Stage.scene_of
                                [Stage.cube; Stage.ball; Stage.line]))).
  { repeat constructor; eexists; reflexivity. }
  assert (Hlen : length (children (Stage.scene_of
                                     [Stage.cube; Stage.ball; Stage.line])) < 4).
  { simpl. lia. }
  split; [exact Hall | split; [exact Hlen |]].
  exact (@clearScene_empties unit nat nat Stage.remove Stage_remove_head
           (Stage.scene_of [Stage.cube; Stage.ball; Stage.line]) 4 Hall Hlen).
Defined.

(** A light between two meshes: the first mesh is disposed of, the light
    leaves the scene, the second mesh stays. *)
Lemma clearScene_stops_at_first_without_geometry_witness :
  let s := Stage.scene_of [Stage.cube; Stage.light; Stage.ball] in
  children s = [Stage.cube] ++ Stage.light :: [Stage.ball] /\
  Forall has_geometry [Stage.cube] /\
  object_geometry Stage.light = None /\ length [Stage.cube] < 3 /\
  clearScene Stage.remove 3 s =
  Some (mkScene None None [Stage.ball]
          [DisposeGeometry nat 1%nat; DisposeMaterial nat 10%nat],
        Threw "TypeError").
Proof.
  assert (Hall : Forall has_geometry [Stage.cube]).
  { repeat constructor; eexists; reflexivity. }
  assert (Hlen : length [Stage.cube] < 3) by (simpl; lia).
  split; [reflexivity | split; [exact Hall | split; [reflexivity |]]].
  split; [exact Hlen |].
  exact (@clearScene_stops_at_first_without_geometry unit nat nat Stage.remove
           Stage_remove_head
           (Stage.scene_of [Stage.cube; Stage.light; Stage.ball]) 3
           [Stage.cube] [Stage.ball] Stage.light eq_refl Hall eq_refl Hlen).
Defined.

(** The options of the entry script: a black background, nothing else. *)
Lemma initScene_first_truthy_option_witness :
  let options := mkSceneOptions (Some (Fin 0)) (None : option unit) None in
  truthy_number (backgroundColor options) = false /\
  initScene nat nat options = mkScene None None [] [].
Proof.
  split; [reflexivity |].
  exact (proj1 (@initScene_first_truthy_option unit nat nat
                  (mkSceneOptions (Some (Fin 0)) None None)) eq_refl).
Defined.

(** ** event listeners module: [debounceWindowResize] *)

Section debounce_facts.
Context {U : Type}.
Variable callback : JS U unit.
Variable delay_arg : option nat.

Local Abbreviation W := (World (Debouncer U)).
Local Abbreviation ms := (delay delay_arg).
Local Abbreviation fire := (on_timeout callback).
Local Abbreviation resize := (resize_event callback delay_arg).
Local Abbreviation idle := (run_timers callback).

(** Handlers of timers do not touch the timers. *)
Lemma on_timeout_iter (n : nat) (w : W) :
  let w' := Nat.iter n (run_callback fire) w in
  timers (vars w') = timers (vars w) /\
  resizeTimeout (vars w') = resizeTimeout (vars w) /\
  next_timer (vars w') = next_timer (vars w) /\
  calls w' = (calls w + n)%nat.
Proof.
  induction n as [| n IH]; simpl.
  - repeat split; lia.
  - destruct IH as (Ht & Hr & Hn & Hc).
    set (v := Nat.iter n (run_callback fire) w) in *.
    unfold run_callback, on_timeout, call.
    destruct (callback (page (vars v))) as [u [[] | e]]; simpl;
      repeat split; auto; lia.
Qed.

Lemma run_timers_spec (now : nat) (w : W) :
  let w' := idle now w in
  timers (vars w') =
  List.filter (fun t => negb (Nat.leb (snd t) now)) (timers (vars w)) /\
  resizeTimeout (vars w') = resizeTimeout (vars w) /\
  next_timer (vars w') = next_timer (vars w) /\
  calls w' =
  (calls w +
   length (List.filter (fun t => Nat.leb (snd t) now) (timers (vars w))))%nat.
Proof.
  unfold run_timers.
  match goal with
  | |- context [Nat.iter ?n _ ?v] =>
      destruct (on_timeout_iter n v) as (Ht & Hr & Hn & Hc)
  end.
  simpl in *. auto.
Qed.


Lemma on_resize_spec (now : nat) (w : W) :
  one_timer w ->
  let w' := run_callback (on_resize delay_arg now) w in
  timers (vars w') = [(next_timer (vars w), (now + ms)%nat)] /\
  resizeTimeout (vars w') = Some (next_timer (vars w)) /\
  next_timer (vars w') = S (next_timer (vars w)) /\
  calls w' = calls w /\ page (vars w') = page (vars w).
Proof.
  intros Hinv. unfold run_callback, on_resize, clearTimeout, setTimeout.
  run_js.
  destruct Hinv as [Hnil | (id & due & Ht & Hr)].
  - rewrite Hnil. destruct (resizeTimeout (vars w)); simpl; auto.
  - rewrite Ht, Hr. simpl. rewrite Nat.eqb_refl. simpl. auto.
Qed.

Lemma run_timers_one_timer (now : nat) (w : W) :
  one_timer w -> one_timer (idle now w).
Proof.
  intros Hinv. destruct (run_timers_spec now w) as (Ht & Hr & _).
  unfold one_timer. rewrite Ht, Hr.
  destruct Hinv as [Hnil | (id & due & Hts & Hrs)].
  - left. rewrite Hnil. reflexivity.
  - rewrite Hts, Hrs. simpl. destruct (Nat.leb due now); simpl; eauto.
Qed.

Lemma resize_event_spec (now : nat) (w : W) :
  one_timer w ->
  let w' := resize now w in
  timers (vars w') = [(next_timer (vars w), (now + ms)%nat)] /\
  resizeTimeout (vars w') = Some (next_timer (vars w)) /\
  calls w' =
  (calls w +
   length (List.filter (fun t => Nat.leb (snd t) now) (timers (vars w))))%nat.
Proof.
  intros Hinv. unfold resize_event.
  destruct (run_timers_spec now w) as (_ & _ & Hn & Hc).
  destruct (on_resize_spec now (run_timers_one_timer now Hinv))
    as (Ht' & Hr' & _ & Hc' & _).
  rewrite Ht', Hr', Hc', Hn, Hc. auto.
Qed.

Lemma resize_event_one_timer (now : nat) (w : W) :
  one_timer w -> one_timer (resize now w).
Proof.
  intros Hinv. destruct (resize_event_spec now Hinv) as (Ht & Hr & _).
  right. eauto.
Qed.

Lemma resized_one_timer (u0 : U) (resizes : list nat) :
  one_timer (resized callback delay_arg u0 resizes).
Proof.
  unfold resized.
  set (w0 := start _ _).
  assert (H0 : one_timer w0) by (left; reflexivity).
  clearbody w0. revert w0 H0.
  induction resizes as [| t resizes IH]; intros w0 H0; simpl; [exact H0 |].
  apply IH, resize_event_one_timer, H0.
Qed.

(** X14: the debouncer never has more than one timer running: after any
    resize events, and after any wait, at most one of its timers is
    active. *)
Theorem debounceWindowResize_single_timer (u0 : U) (resizes : list nat)
  (until : nat) :
  length (timers (vars (resized callback delay_arg u0 resizes))) <= 1 /\
  length (timers (vars (debounced callback delay_arg u0 resizes until))) <= 1.
Proof.
  assert (H : forall w : W, one_timer w -> length (timers (vars w)) <= 1).
  { intros w [-> | (id & due & -> & _)]; simpl; lia. }
  split; apply H.
  - apply resized_one_timer.
  - apply run_timers_one_timer, resized_one_timer.
Qed.

(** The count from a world with a timer due at [due]. *)
Lemma debounce_count_armed (resizes : list nat) (until : nat) :
  forall (w : W) (id due : nat),
    timers (vars w) = [(id, due)] ->
    resizeTimeout (vars w) = Some id ->
    calls (idle until (fold_left (fun w t => resize t w) resizes w)) =
    (calls w + (if Nat.leb due (hd until resizes) then 1 else 0)
     + settled delay_arg resizes until)%nat.
Proof.
  induction resizes as [| t resizes IH]; intros w id due Ht Hr; simpl.
  - destruct (run_timers_spec until w) as (_ & _ & _ & Hc).
    rewrite Hc, Ht. simpl. destruct (Nat.leb due until); simpl; lia.
  - assert (Hinv : one_timer w) by (right; eauto).
    destruct (resize_event_spec t Hinv) as (Ht' & Hr' & Hc').
    rewrite (IH _ _ _ Ht' Hr'), Hc', Ht. simpl.
    destruct (Nat.leb due t); simpl; lia.
Qed.

Lemma debounced_calls_settled (u0 : U) (resizes : list nat) (until : nat) :
  calls (debounced callback delay_arg u0 resizes until) =
  settled delay_arg resizes until.
Proof.
  unfold debounced, resized.
  set (w0 := start _ _).
  assert (H0 : timers (vars w0) = [] /\ calls w0 = 0%nat) by (split; reflexivity).
  clearbody w0. destruct H0 as [Ht Hc].
  destruct resizes as [| t resizes]; simpl.
  - destruct (run_timers_spec until w0) as (_ & _ & _ & Hc').
    rewrite Hc', Ht, Hc. reflexivity.
  - assert (Hinv : one_timer w0) by (left; exact Ht).
    destruct (resize_event_spec t Hinv) as (Ht' & Hr' & Hc').
    rewrite (debounce_count_armed resizes until Ht' Hr'), Hc', Ht, Hc.
    simpl. lia.
Qed.

(** X15: the callback runs once for every resize event that is not
    followed by another resize within [delay] ms (the last one counts
    once the wait has reached [delay]), and never otherwise, whether or
    not it throws. *)
Theorem debounceWindowResize_calls (u0 : U) (resizes : list nat)
  (until : nat) :
  calls (debounced callback delay_arg u0 resizes until) =
  settled delay_arg resizes until.
Proof. apply debounced_calls_settled. Qed.

Lemma settled_burst (resizes : list nat) (until : nat) :
  burst delay_arg resizes -> resizes <> [] ->
  (List.last resizes 0%nat + ms <= until)%nat ->
  settled delay_arg resizes until = 1%nat.
Proof.
  induction resizes as [| t resizes IH]; intros Hb Hne Hlast; [congruence |].
  destruct resizes as [| t' resizes].
  - simpl in *. apply Nat.leb_le in Hlast. rewrite Hlast. reflexivity.
  - destruct Hb as [Hgap Hb].
    change (settled delay_arg (t :: t' :: resizes) until)
      with ((if Nat.leb (t + ms) t' then 1 else 0)
            + settled delay_arg (t' :: resizes) until)%nat.
    rewrite IH by (auto; congruence).
    destruct (Nat.leb (t + ms) t') eqn:E; [| reflexivity].
    apply Nat.leb_le in E. lia.
Qed.

(** X16: a burst of resize events, each less than [delay] ms after the
    one before, makes the callback run exactly once, provided the host
    then waits [delay] ms after the last of them. *)
Theorem debounceWindowResize_burst_once (u0 : U) (resizes : list nat)
  (until : nat) :
  burst delay_arg resizes -> resizes <> [] ->
  (List.last resizes 0%nat + ms <= until)%nat ->
  calls (debounced callback delay_arg u0 resizes until) = 1%nat.
Proof.
  intros Hb Hne Hlast. rewrite debounced_calls_settled.
  apply settled_burst; assumption.
Qed.
End debounce_facts.

(** Five resizes 50 ms apart, then quiet until 500 ms, with the default
    delay of 200 ms: one call. *)
Lemma debounceWindowResize_burst_once_witness :
  let resizes := [0; 50; 100; 150; 200]%nat in
  burst None resizes /\ resizes <> [] /\
  (List.last resizes 0 + delay None <= 500)%nat /\
  calls (debounced counting None 0%nat resizes 500) = 1%nat.
Proof.
  assert (Hb : burst None [0; 50; 100; 150; 200]%nat).
  { simpl. unfold delay. simpl. repeat split; lia. }
  assert (Hne : [0; 50; 100; 150; 200]%nat <> []) by discriminate.
  assert (Hl : (List.last [0; 50; 100; 150; 200]%nat 0 + delay None <= 500)%nat).
  { unfold delay. simpl. lia. }
  split; [exact Hb | split; [exact Hne | split; [exact Hl |]]].
  exact (@debounceWindowResize_burst_once nat counting None 0%nat
           [0; 50; 100; 150; 200]%nat 500%nat Hb Hne Hl).
Defined.

(** ** event listeners module: keyboard, pointer and resize handlers *)

Section keyboard_facts.
Context {U : Type}.
Variable toLowerCase : string -> string.
Hypothesis toLowerCase_idem :
  forall s, toLowerCase (toLowerCase s) = toLowerCase s.

(** X17: the keyboard handlers look [actions] up under the lower-cased
    key only.  Whatever is stored under a property name that is not in
    lower case (["W"], ["ArrowUp"], ["Escape"]) is never used: storing an
    action there changes neither handler, for any key event.  And a key
    with no entry does nothing. *)
Theorem handleKeyboardInput_ignores_mixed_case_entries
  (actions : gmap string (KeyAction U)) (name : string) (a : KeyAction U)
  (key : string) :
  toLowerCase name <> name ->
  on_keydown toLowerCase (<[name := a]> actions) key =
  on_keydown toLowerCase actions key /\
  on_keyup toLowerCase (<[name := a]> actions) key =
  on_keyup toLowerCase actions key /\
  (actions !! toLowerCase key = None ->
   forall w : World U,
     on_keydown toLowerCase actions key w = (w, Ok tt) /\
     on_keyup toLowerCase actions key w = (w, Ok tt)).
Proof.
  intros Hname.
  assert (Hne : name <> toLowerCase key).
  { intros ->. apply Hname. apply toLowerCase_idem. }
  unfold on_keydown, on_keyup.
  rewrite lookup_insert_ne by exact Hne.
  split; [reflexivity | split; [reflexivity |]].
  intros ->. intros w. split; reflexivity.
Qed.
End keyboard_facts.

Lemma lower_ascii_idem (c : Ascii.ascii) :
  lower_ascii (lower_ascii c) = lower_ascii c.
Proof. destruct c as [[] [] [] [] [] [] [] []]; reflexivity. Qed.

Lemma lower_idem (s : string) : lower (lower s) = lower s.
Proof.
  induction s as [| c s IH]; simpl; [reflexivity |].
  rewrite lower_ascii_idem, IH. reflexivity.
Qed.

(** An action stored under ["W"] is not reached by the key ["W"]. *)
Lemma handleKeyboardInput_ignores_mixed_case_entries_witness :
  let a := mkKeyAction (Some counting) None in
  lower "W" <> "W" /\
  on_keydown lower (<["W" := a]> ∅) "W" = on_keydown lower ∅ "W".
Proof.
  assert (H : lower "W" <> "W") by discriminate.
  split; [exact H |].
  exact (proj1 (@handleKeyboardInput_ignores_mixed_case_entries nat lower
                  lower_idem ∅ "W" (mkKeyAction (Some counting) None) "W" H)).
Defined.

Lemma pointer_x_range (cx w : Q) :
  (0 < w)%Q -> (0 <= cx)%Q -> (cx <= w)%Q ->
  exists x, pointer_x (Fin cx) (Fin w) = Fin x /\
            (x == 2 * cx / w - 1)%Q /\ (-1 <= x)%Q /\ (x <= 1)%Q.
Proof.
  intros Hw H0 H1. unfold pointer_x. simpl.
  destruct (Qeq_bool w 0) eqn:E.
  { apply Qeq_bool_iff in E. lra. }
  simpl. eexists. split; [reflexivity |].
  rewrite !Qred_correct.
  assert (Hq0 : (0 <= cx / w)%Q) by (apply Qle_shift_div_l; lra).
  assert (Hq1 : (cx / w <= 1)%Q) by (apply Qle_shift_div_r; lra).
  assert (Heq : (2 * cx / w == 2 * (cx / w))%Q) by (field; lra).
  rewrite Heq. set (q := (cx / w)%Q) in *. clearbody q.
  repeat split; lra.
Qed.

Lemma pointer_y_range (cy h : Q) :
  (0 < h)%Q -> (0 <= cy)%Q -> (cy <= h)%Q ->
  exists y, pointer_y (Fin cy) (Fin h) = Fin y /\
            (y == 1 - 2 * cy / h)%Q /\ (-1 <= y)%Q /\ (y <= 1)%Q.
Proof.
  intros Hh H0 H1. unfold pointer_y. simpl.
  destruct (Qeq_bool h 0) eqn:E.
  { apply Qeq_bool_iff in E. lra. }
  simpl. eexists. split; [reflexivity |].
  rewrite !Qred_correct.
  assert (Hq0 : (0 <= cy / h)%Q) by (apply Qle_shift_div_l; lra).
  assert (Hq1 : (cy / h <= 1)%Q) by (apply Qle_shift_div_r; lra).
  assert (Heq : (2 * cy / h == 2 * (cy / h))%Q) by (field; lra).
  rewrite Heq. set (q := (cy / h)%Q) in *. clearbody q.
  repeat split; lra.
Qed.

(** X18: for a pointer inside a window of positive size, each of the
    four listeners hands its own callback ([onMove] on [mousemove] and
    [touchmove], [onClick] on [click], [onTap] on [touchstart]) the same
    vector, with both coordinates in [-1, 1]:
    [x = 2 clientX / width - 1] grows to the right and
    [y = 1 - 2 clientY / height] grows upwards.  The touch listeners
    take the position from the first touch of the event, whatever
    touches follow it, and call nothing when the event has no
    touches. *)
Theorem pointer_listeners_normalise {U} (onMove onTap : num * num -> JS U unit)
  (cx cy w h : Q) (others : list (num * num)) (v : World (Viewport U)) :
  innerWidth (vars v) = Fin w -> innerHeight (vars v) = Fin h ->
  (0 < w)%Q -> (0 < h)%Q ->
  (0 <= cx)%Q -> (cx <= w)%Q -> (0 <= cy)%Q -> (cy <= h)%Q ->
  exists x y,
    (x == 2 * cx / w - 1)%Q /\ (y == 1 - 2 * cy / h)%Q /\
    (-1 <= x)%Q /\ (x <= 1)%Q /\ (-1 <= y)%Q /\ (y <= 1)%Q /\
    on_mousemove onMove (Fin cx) (Fin cy) v =
    call (@behind U) (fun u c => mkViewport (innerWidth c) (innerHeight c) u)
      (onMove (Fin x, Fin y)) v /\
    on_click onTap (Fin cx) (Fin cy) v =
    call (@behind U) (fun u c => mkViewport (innerWidth c) (innerHeight c) u)
      (onTap (Fin x, Fin y)) v /\
    on_touchmove onMove ((Fin cx, Fin cy) :: others) v =
    call (@behind U) (fun u c => mkViewport (innerWidth c) (innerHeight c) u)
      (onMove (Fin x, Fin y)) v /\
    on_touchstart onTap ((Fin cx, Fin cy) :: others) v =
    call (@behind U) (fun u c => mkViewport (innerWidth c) (innerHeight c) u)
      (onTap (Fin x, Fin y)) v /\
    on_touchmove onMove [] v = (v, Ok tt) /\
    on_touchstart onTap [] v = (v, Ok tt).
Proof.
  intros Hw Hh Hwpos Hhpos Hx0 Hx1 Hy0 Hy1.
  destruct (pointer_x_range Hwpos Hx0 Hx1) as (x & Hx & Hxe & Hxl & Hxu).
  destruct (pointer_y_range Hhpos Hy0 Hy1) as (y & Hy & Hye & Hyl & Hyu).
  exists x, y. repeat split; try assumption;
    unfold on_mousemove, on_click, on_touchmove, on_touchstart, with_vector,
      bind, read, gets; simpl; rewrite Hw, Hh, Hx, Hy; reflexivity.
Qed.

(** In an 800 by 600 window, a touch event whose first touch is at the
    centre and whose second is in a corner: [onTap] is handed the vector
    of the centre, the origin. *)
Lemma pointer_listeners_normalise_witness :
  let record := fun p : num * num => modify (fun l => l ++ [p]) in
  let v := boot (mkViewport (Fin 800) (Fin 600) []) in
  (0 < 800)%Q /\ (0 <= 400)%Q /\ (400 <= 800)%Q /\
  exists x y, (x == 2 * 400 / 800 - 1)%Q /\ (y == 1 - 2 * 300 / 600)%Q /\
              (-1 <= x)%Q /\ (x <= 1)%Q /\ (-1 <= y)%Q /\ (y <= 1)%Q /\
              on_touchstart record [(Fin 400, Fin 300); (Fin 800, Fin 0)] v =
              call (@behind _)
                (fun u c => mkViewport (innerWidth c) (innerHeight c) u)
                (record (Fin x, Fin y)) v.
Proof.
  assert (H1 : (0 < 800)%Q) by reflexivity.
  assert (H2 : (0 < 600)%Q) by reflexivity.
  assert (H3 : (0 <= 400)%Q) by (vm_compute; discriminate).
  assert (H4 : (400 <= 800)%Q) by (vm_compute; discriminate).
  assert (H5 : (0 <= 300)%Q) by (vm_compute; discriminate).
  assert (H6 : (300 <= 600)%Q) by (vm_compute; discriminate).
  split; [exact H1 | split; [exact H3 | split; [exact H4 |]]].
  destruct (@pointer_listeners_normalise (list (num * num))
              (fun p => modify (fun l => l ++ [p]))
              (fun p => modify (fun l => l ++ [p]))
              400 300 800 600 [(Fin 800, Fin 0)]
              (boot (mkViewport (Fin 800) (Fin 600) []))
              eq_refl eq_refl H1 H2 H3 H4 H5 H6)
    as (x & y & Hx & Hy & Hxl & Hxu & Hyl & Hyu & _ & _ & _ & Htap & _).
  exists x, y. repeat split; assumption.
Defined.

Section resize_facts.
Variable Projection : Type.
Variable projectionOf : Resize.ViewCamera Projection -> Projection.

Local Abbreviation Pg := (Resize.Page Projection).

(** The three resize listeners of the repository are interchangeable.
    The one of the renderer module resizes the renderer before it fits
    the camera and the other two after, but all three leave the same
    page: the renderer at the window's size, the camera fitted to it with
    its projection matrix recomputed after the fit. *)
Lemma resize_listeners_agree (p : Pg) :
  Resize.renderer_onWindowResize projectionOf p =
  Resize.camera_onWindowResize projectionOf p /\
  Resize.handleWindowResize projectionOf p =
  Resize.camera_onWindowResize projectionOf p /\
  Resize.rendererSize (Resize.camera_onWindowResize projectionOf p) =
  Some (Resize.innerWidth p, Resize.innerHeight p) /\
  Resize.camera (Resize.camera_onWindowResize projectionOf p) =
  Resize.updateProjectionMatrix projectionOf
    (Resize.fit (Resize.innerWidth p) (Resize.innerHeight p)
       (Resize.camera p)).
Proof. repeat split. Qed.

(** X19: a resize gives an orthographic camera a frustum of height 10
    centred on the axis, as wide as the window's aspect ratio demands,
    whatever bounds the camera had: [top = 5], [bottom = -5],
    [right = 5 width / height], [left = - right]; its [aspect] field is
    left alone.  This is so for each of the three resize listeners, which
    leave the same page. *)
Theorem resize_orthographic_frustum (p : Pg) (w h : Q) :
  Resize.isPerspectiveCamera (Resize.camera p) = false ->
  Resize.isOrthographicCamera (Resize.camera p) = true ->
  Resize.innerWidth p = Fin w -> Resize.innerHeight p = Fin h ->
  (0 < h)%Q ->
  let cam := Resize.camera (Resize.camera_onWindowResize projectionOf p) in
  exists l r,
    Resize.left cam = Fin l /\ Resize.right cam = Fin r /\
    Resize.top cam = Fin 5 /\ Resize.bottom cam = Fin (-5) /\
    (r == 5 * w / h)%Q /\ (l == - r)%Q /\
    ((r - l) / (5 - -5) == w / h)%Q /\
    Resize.aspect cam = Resize.aspect (Resize.camera p) /\
    Resize.renderer_onWindowResize projectionOf p =
    Resize.camera_onWindowResize projectionOf p /\
    Resize.handleWindowResize projectionOf p =
    Resize.camera_onWindowResize projectionOf p.
Proof.
  intros Hp Ho Hw Hh Hpos.
  destruct (resize_listeners_agree p) as (Hagree1 & Hagree2 & _).
  rewrite Hagree1, Hagree2. clear Hagree1 Hagree2. simpl.
  unfold Resize.camera_onWindowResize, Resize.fit. simpl.
  rewrite Hp, Ho, Hw, Hh. simpl.
  destruct (Qeq_bool h 0) eqn:E.
  { apply Qeq_bool_iff in E. lra. }
  simpl. eexists _, _.
  split; [reflexivity |]. split; [reflexivity |].
  split; [reflexivity |]. split; [reflexivity |].
  rewrite !Qred_correct.
  split; [field; lra |]. split; [field; lra |]. split; [field; lra |].
  repeat split.
Qed.
End resize_facts.

(** A camera created with bounds of 1, in a 1600 by 800 window. *)
Lemma resize_orthographic_frustum_witness :
  let cam := Resize.mkViewCamera false true (Fin 1) (Fin (-1)) (Fin 1)
               (Fin 1) (Fin (-1)) tt in
  let p := Resize.mkPage (Fin 1600) (Fin 800) cam None in
  (0 < 800)%Q /\
  Resize.right (Resize.camera
    (Resize.camera_onWindowResize (fun _ => tt) p)) = Fin 10 /\
  exists l r : Q, (r == 5 * 1600 / 800)%Q /\ (l == - r)%Q.
Proof.
  assert (H : (0 < 800)%Q) by reflexivity.
  split; [exact H | split; [reflexivity |]].
  destruct (@resize_orthographic_frustum unit (fun _ => tt)
              (Resize.mkPage (Fin 1600) (Fin 800)
                 (Resize.mkViewCamera false true (Fin 1) (Fin (-1)) (Fin 1)
                    (Fin 1) (Fin (-1)) tt) None)
              1600 800 eq_refl eq_refl eq_refl eq_refl H)
    as (l & r & _ & _ & _ & _ & Hr & Hl & _).
  exists l, r. split; assumption.
Defined.

(** ** camera module *)

(** X20: the camera rig starts on the perspective camera, and after any
    calls of its two switches [getCurrentCamera] returns the camera of
    the last call; it is never anything but one of the two cameras given
    to [initCameraRig]. *)
Theorem initCameraRig_last_switch_wins {Cam} (p o : Cam) (cs : list RigCall) :
  getCurrentCamera p o [] = p /\
  (forall c, getCurrentCamera p o (cs ++ [c]) =
             match c with
             | switchToPerspective => p
             | switchToOrthographic => o
             end) /\
  (getCurrentCamera p o cs = p \/ getCurrentCamera p o cs = o).
Proof.
  split; [reflexivity |]. split.
  - intros c. unfold getCurrentCamera. rewrite fold_left_app.
    destruct c; reflexivity.
  - induction cs as [| c cs IH] using rev_ind; [left; reflexivity |].
    unfold getCurrentCamera. rewrite fold_left_app.
    destruct c; simpl; auto.
Qed.

Section lockCameraToObject_facts.
Variables V Qn : Type.

Local Abbreviation renderLoop := (@lockCameraToObject_renderLoop V Qn).

Lemma lockCameraToObject_renderLoop_run (w : World (Follow V Qn)) :
  run_callback renderLoop w =
  mkWorld
    (mkFollow (object_position (vars w)) (object_quaternion (vars w))
       (object_position (vars w)) (object_quaternion (vars w)))
    (S (pending w)) (calls w) (reported w).
Proof. reflexivity. Qed.

(** X21: a camera locked to an object follows it for good.  After the
    call and after every refresh, whatever the page did to the object and
    to the camera in between, the camera has the object's position and
    quaternion of that moment, the object is as the page left it, and the
    next frame is requested. *)
Theorem lockCameraToObject_follows (c0 : Follow V Qn)
  (moves : list (Follow V Qn -> Follow V Qn))
  (f : Follow V Qn -> Follow V Qn) :
  let after ms :=
    fold_left (follow_frame (V := V) (Qn := Qn)) ms
      (start (@lockCameraToObject V Qn) (boot c0)) in
  let w := after moves in
  pending w = 1%nat /\ reported w = [] /\
  camera_position (vars w) = object_position (vars w) /\
  camera_quaternion (vars w) = object_quaternion (vars w) /\
  object_position (vars (after (moves ++ [f]))) =
  object_position (f (vars w)) /\
  object_quaternion (vars (after (moves ++ [f]))) =
  object_quaternion (f (vars w)).
Proof.
  simpl.
  assert (Hstep : forall (w0 : World (Follow V Qn)) g,
             pending w0 = 1%nat ->
             follow_frame w0 g =
             mkWorld
               (mkFollow (object_position (g (vars w0)))
                  (object_quaternion (g (vars w0)))
                  (object_position (g (vars w0)))
                  (object_quaternion (g (vars w0))))
               1 (calls w0) (reported w0)).
  { intros w0 g Hp. unfold follow_frame. rewrite frame_one by exact Hp.
    rewrite lockCameraToObject_renderLoop_run. reflexivity. }
  assert (H : forall w0 : World (Follow V Qn),
             pending w0 = 1%nat -> reported w0 = [] ->
             camera_position (vars w0) = object_position (vars w0) ->
             camera_quaternion (vars w0) = object_quaternion (vars w0) ->
             let w := fold_left (follow_frame (V := V) (Qn := Qn)) moves w0 in
             pending w = 1%nat /\ reported w = [] /\
             camera_position (vars w) = object_position (vars w) /\
             camera_quaternion (vars w) = object_quaternion (vars w)).
  { induction moves as [| g gs IH]; intros w0 Hp Hr Hcp Hcq; simpl; [auto |].
    apply IH; rewrite Hstep by exact Hp; simpl; auto. }
  destruct (H (start (@lockCameraToObject V Qn) (boot c0)))
    as (Hp & Hr & Hcp & Hcq); try reflexivity.
  rewrite fold_left_app. simpl. rewrite Hstep by exact Hp. simpl.
  repeat split; assumption.
Qed.
End lockCameraToObject_facts.

(** ** controls module *)

Lemma set_key_flags (v : bool) (key : string) (keys : Keys) :
  let k := set_key v key keys in
  forward k = (if String.eqb key "w" then v else forward keys) /\
  backward k = (if String.eqb key "s" then v else backward keys) /\
  key_left k = (if String.eqb key "a" then v else key_left keys) /\
  key_right k = (if String.eqb key "d" then v else key_right keys) /\
  key_up k = (if String.eqb key "q" then v else key_up keys) /\
  key_down k = (if String.eqb key "e" then v else key_down keys).
Proof.
  unfold set_key.
  destruct (String.eqb key "w") eqn:Ew.
  { apply String.eqb_eq in Ew. subst key. simpl. repeat split. }
  destruct (String.eqb key "s") eqn:Es.
  { apply String.eqb_eq in Es. subst key. simpl. repeat split. }
  destruct (String.eqb key "a") eqn:Ea.
  { apply String.eqb_eq in Ea. subst key. simpl. repeat split. }
  destruct (String.eqb key "d") eqn:Ed.
  { apply String.eqb_eq in Ed. subst key. simpl. repeat split. }
  destruct (String.eqb key "q") eqn:Eq.
  { apply String.eqb_eq in Eq. subst key. simpl. repeat split. }
  destruct (String.eqb key "e") eqn:Ee; simpl; repeat split.
Qed.

(** X22: each flag of the keyboard controls follows the events that
    carry exactly its lower-case letter and no others: after any key
    events, [forward] is set if and only if the latest event whose key is
    ["w"] was a keydown, and so on for ["s"], ["a"], ["d"], ["q"],
    ["e"].  A keyup that arrives as ["W"] therefore leaves [forward]
    set. *)
Theorem initCustomKeyboardControls_flags (events : list KeyEvent) :
  let keys := keys_after events in
  forward keys = held "w" events /\ backward keys = held "s" events /\
  key_left keys = held "a" events /\ key_right keys = held "d" events /\
  key_up keys = held "q" events /\ key_down keys = held "e" events.
Proof.
  induction events as [| e events IH] using rev_ind.
  - repeat split.
  - simpl in *. unfold keys_after, held in *. rewrite !fold_left_app. simpl.
    destruct IH as (H1 & H2 & H3 & H4 & H5 & H6).
    destruct e as [key | key]; simpl;
      destruct (set_key_flags true key
                  (fold_left key_event events
                     (mkKeys false false false false false false)))
        as (F1 & F2 & F3 & F4 & F5 & F6);
      destruct (set_key_flags false key
                  (fold_left key_event events
                     (mkKeys false false false false false false)))
        as (G1 & G2 & G3 & G4 & G5 & G6);
      simpl in *;
      rewrite ?F1, ?F2, ?F3, ?F4, ?F5, ?F6, ?G1, ?G2, ?G3, ?G4, ?G5, ?G6,
        H1, H2, H3, H4, H5, H6;
      repeat split.
Qed.

(** The key pressed as ["w"] and released as ["W"] stays pressed. *)
Example initCustomKeyboardControls_stuck_key :
  forward (keys_after [KeyDown "w"; KeyUp "W"]) = true /\
  forward (keys_after [KeyDown "w"; KeyUp "w"]) = false.
Proof. split; reflexivity. Qed.

(** ** materials module *)

Lemma option_or_truthy (v : option num) (d : num) :
  truthy d = true -> truthy (option_or v d) = true.
Proof.
  intros Hd. unfold option_or, or_else.
  destruct v as [n |]; [| exact Hd].
  destruct (truthy n) eqn:E; [exact E | exact Hd].
Qed.

Lemma option_or_falsy (n d : num) :
  truthy n = false -> option_or (Some n) d = d.
Proof. intros H. unfold option_or, or_else. rewrite H. reflexivity. Qed.

(** X23: [standardMaterial] and [envMappedMaterial] never pass a colour,
    metalness or roughness of 0 (or NaN) to the library: an option of 0
    is replaced by the default, so a black, a fully non-metallic or a
    perfectly smooth material cannot be asked for (0 gives white,
    metalness 0.5 or 1.0, roughness 0.5 or 0.1). *)
Theorem material_defaults_replace_zero {Texture}
  (options : MaterialOptions Texture) (environmentMap : option Texture) :
  let p := standardMaterial options in
  let e := envMappedMaterial environmentMap options in
  (truthy (color p) = true /\ truthy (metalness p) = true /\
   truthy (roughness p) = true /\ truthy (env_color e) = true /\
   truthy (env_metalness e) = true /\ truthy (env_roughness e) = true) /\
  (forall n, truthy n = false ->
     (opt_color options = Some n ->
      color p = Fin 16777215 /\ env_color e = Fin 16777215) /\
     (opt_metalness options = Some n ->
      metalness p = Fin (1 # 2) /\ env_metalness e = Fin 1) /\
     (opt_roughness options = Some n ->
      roughness p = Fin (1 # 2) /\ env_roughness e = Fin (1 # 10))).
Proof.
  simpl. split.
  - repeat split; apply option_or_truthy; reflexivity.
  - intros n Hn. unfold standardMaterial, envMappedMaterial. simpl.
    split; [| split]; intros ->; split; apply option_or_falsy; exact Hn.
Qed.

(** ** utilities module *)

(** X24: for a value of [Math.random()] in [0, 1), [getRandomColor]
    returns a whole number from 0 to 0xfffffe: pure white, 0xffffff, is
    never produced. *)
Theorem getRandomColor_range (r : Q) :
  (0 <= r)%Q -> (r < 1)%Q ->
  exists n : Z, getRandomColor (Fin r) = Fin (inject_Z n) /\
                (0 <= n)%Z /\ (n <= 16777214)%Z.
Proof.
  intros H0 H1. unfold getRandomColor. simpl.
  exists (Qfloor (Qred (r * 16777215))). split; [reflexivity |].
  rewrite Qred_correct. split.
  - change 0%Z with (Qfloor (inject_Z 0)). apply Qfloor_resp_le.
    change (inject_Z 0) with 0%Q. apply Qmult_le_0_compat; lra.
  - pose proof (Qfloor_le (r * 16777215)) as Hfl.
    assert (Hlt : (inject_Z (Qfloor (r * 16777215)) < inject_Z 16777215)%Q).
    { change (inject_Z 16777215) with 16777215%Q. lra. }
    rewrite <- Zlt_Qlt in Hlt. lia.
Qed.

Lemma getRandomColor_range_witness :
  (0 <= 1 # 2)%Q /\ (1 # 2 < 1)%Q /\
  exists n : Z, getRandomColor (Fin (1 # 2)) = Fin (inject_Z n) /\
                (0 <= n)%Z /\ (n <= 16777214)%Z.
Proof.
  assert (H0 : (0 <= 1 # 2)%Q) by (vm_compute; discriminate).
  assert (H1 : (1 # 2 < 1)%Q) by reflexivity.
  split; [exact H0 | split; [exact H1 |]].
  exact (@getRandomColor_range (1 # 2) H0 H1).
Defined.

(** ** animations module: uniforms *)

(** X25: [animateMaterialUniforms] writes exactly the uniforms that the
    material already has and that [uniforms] names, each with the value
    its function gives for [speed] and [time].  It creates no uniform the
    material lacks, and leaves the other uniforms of the material as they
    are. *)
Theorem animateMaterialUniforms_updates_existing {Value}
  (material_uniforms : gmap string Value)
  (uniforms : gmap string (num -> num -> Value)) (speed time : num) :
  let after :=
    animateMaterialUniforms material_uniforms uniforms speed time in
  (forall name,
     after !! name =
     match material_uniforms !! name, uniforms !! name with
     | Some _, Some f => Some (f speed time)
     | old, _ => old
     end) /\
  dom after = dom material_uniforms.
Proof.
  simpl.
  assert (H : forall name,
             animateMaterialUniforms material_uniforms uniforms speed time
               !! name =
             match material_uniforms !! name, uniforms !! name with
             | Some _, Some f => Some (f speed time)
             | old, _ => old
             end).
  { unfold animateMaterialUniforms.
    apply (map_fold_weak_ind
             (fun (r : gmap string Value)
                  (m : gmap string (num -> num -> Value)) =>
                forall name,
                  r !! name =
                  match material_uniforms !! name, m !! name with
                  | Some _, Some f => Some (f speed time)
                  | old, _ => old
                  end)).
    - intros name. rewrite lookup_empty.
      destruct (material_uniforms !! name); reflexivity.
    - intros i f m r Hi IH name.
      pose proof (IH i) as IHi. rewrite Hi in IHi.
      destruct (decide (i = name)) as [<- | Hne].
      + rewrite lookup_insert_eq.
        destruct (material_uniforms !! i) as [old |] eqn:Em.
        * rewrite IHi. apply lookup_insert_eq.
        * rewrite IHi. exact IHi.
      + rewrite (lookup_insert_ne m) by exact Hne.
        destruct (r !! i).
        * rewrite lookup_insert_ne by exact Hne. apply IH.
        * apply IH. }
  split; [exact H |].
  apply set_eq. intros name. rewrite !elem_of_dom, H.
  destruct (material_uniforms !! name); [| reflexivity].
  destruct (uniforms !! name); split; eauto.
Qed.

(** ** renderer module and performance module: shadow maps *)

(** X26: [optimizeShadowMap] never turns shadows off.  Applied to the
    renderer [initRenderer] makes, it leaves the shadow map enabled even
    when [initRenderer] was told [shadowMap: false], with the soft type
    in high quality and the basic type otherwise (the default), which
    replaces the soft type [initRenderer] sets; [antialias: false] is
    kept, and a second call changes nothing. *)
Theorem optimizeShadowMap_always_enables (options : WebGL.RendererOptions)
  (innerWidth innerHeight devicePixelRatio : num)
  (useHighQuality : option bool) :
  let r0 := WebGL.initRenderer options innerWidth innerHeight devicePixelRatio in
  let r := WebGL.optimizeShadowMap r0 useHighQuality in
  WebGL.shadowMap_enabled r0 = default true (WebGL.opt_shadowMap options) /\
  WebGL.shadowMap_enabled r = true /\
  WebGL.shadowMap_type r =
    (if default false useHighQuality
     then WebGL.PCFSoftShadowMap else WebGL.BasicShadowMap) /\
  WebGL.antialias r = default true (WebGL.opt_antialias options) /\
  WebGL.size r = (innerWidth, innerHeight) /\
  WebGL.pixelRatio r = devicePixelRatio /\
  WebGL.optimizeShadowMap r useHighQuality = r.
Proof.
  unfold WebGL.initRenderer, WebGL.optimizeShadowMap.
  destruct options as [[a |] [sh |]];
    destruct (default false useHighQuality); simpl; repeat split.
Qed.

(** Asking for a black, non-metallic, perfectly smooth material. *)
Lemma material_defaults_replace_zero_witness :
  let options : MaterialOptions unit :=
    mkMaterialOptions (Some (Fin 0)) (Some (Fin 0)) (Some (Fin 0)) None
      None None None None None in
  truthy (Fin 0) = false /\
  color (standardMaterial options) = Fin 16777215 /\
  metalness (standardMaterial options) = Fin (1 # 2) /\
  roughness (standardMaterial options) = Fin (1 # 2).
Proof.
  pose proof (proj2 (@material_defaults_replace_zero unit
                       (mkMaterialOptions (Some (Fin 0)) (Some (Fin 0))
                          (Some (Fin 0)) None None None None None None)
                       None)
                (Fin 0) eq_refl) as (Hc & Hm & Hr).
  split; [reflexivity |].
  split; [exact (proj1 (Hc eq_refl)) |].
  split; [exact (proj1 (Hm eq_refl)) | exact (proj1 (Hr eq_refl))].
Defined.

(** ** [optimizeRenderLoop]: what the render function sees *)

Lemma optimizeRenderLoop_loop_vars {U} (renderFunction : JS U unit)
  (w : World U) :
  let w' := run_callback (optimizeRenderLoop_loop renderFunction) w in
  vars w' = fst (renderFunction (vars w)) /\ pending w' = S (pending w) /\
  reported w' =
  reported w ++
  match snd (renderFunction (vars w)) with
  | Ok _ => []
  | Threw e => [e]
  end.
Proof.
  unfold run_callback, optimizeRenderLoop_loop. run_js.
  destruct (renderFunction (vars w)) as [u [[] | e]]; simpl;
    rewrite ?app_nil_r; auto.
Qed.

Lemma flat_map_seq_shift {A} (f : nat -> list A) (n : nat) :
  forall a, flat_map f (seq (S a) n) = flat_map (fun k => f (S k)) (seq a n).
Proof.
  induction n as [| n IH]; intros a; simpl; [reflexivity |].
  rewrite IH. reflexivity.
Qed.

(** X27: under [optimizeRenderLoop] the render function runs once when
    the loop is started and once per refresh, each run on the state the
    previous run left behind, whether or not earlier runs threw; every
    throw is reported and none is lost or repeated. *)
Theorem optimizeRenderLoop_runs_every_frame {U} (renderFunction : JS U unit)
  (u0 : U) (ticks : list num) :
  let w :=
    frames (fun _ => optimizeRenderLoop_loop renderFunction) ticks
      (start (optimizeRenderLoop renderFunction) (boot u0)) in
  let run u := fst (renderFunction u) in
  vars w = Nat.iter (S (length ticks)) run u0 /\
  reported w =
  flat_map
    (fun k =>
       match snd (renderFunction (Nat.iter k run u0)) with
       | Ok _ => []
       | Threw e => [e]
       end)
    (seq 0 (S (length ticks))).
Proof.
  simpl.
  set (run := fun u => fst (renderFunction u)).
  set (err := fun u => match snd (renderFunction u) with
                       | Ok _ => []
                       | Threw e => [e]
                       end).
  assert (H : forall w : World U,
             pending w = 1%nat ->
             let w' :=
               frames (fun _ => optimizeRenderLoop_loop renderFunction) ticks w
             in
             vars w' = Nat.iter (length ticks) run (vars w) /\
             reported w' =
             reported w ++
             flat_map (fun k => err (Nat.iter k run (vars w)))
               (seq 0 (length ticks))).
  { induction ticks as [| t ticks IH]; intros w Hp.
    - simpl. rewrite app_nil_r. auto.
    - cbn [frames fold_left length]. rewrite frame_one by exact Hp.
      destruct (optimizeRenderLoop_loop_vars renderFunction
                  (mkWorld (vars w) 0 (calls w) (reported w)))
        as (Hv & Hp' & Hr).
      cbn [vars pending calls reported] in Hv, Hp', Hr.
      destruct (IH _ Hp') as [IHv IHr].
      unfold frames in IHv, IHr. rewrite IHv, IHr, Hv, Hr.
      split.
      + exact (Nat.iter_swap (length ticks) U run (vars w)).
      + rewrite <- app_assoc. f_equal.
        cbn [seq flat_map]. f_equal.
        rewrite flat_map_seq_shift.
        apply flat_map_ext. intros k.
        change (err (Nat.iter k run (run (vars w))) =
                err (run (Nat.iter k run (vars w)))).
        f_equal. exact (Nat.iter_swap k U run (vars w)). }
  destruct (optimizeRenderLoop_loop_vars renderFunction (boot u0))
    as (Hv & Hp & Hr).
  cbn [boot vars pending calls reported] in Hv, Hp, Hr.
  destruct (H _ Hp) as [Hv' Hr'].
  unfold start, optimizeRenderLoop. rewrite Hv', Hr', Hv, Hr.
  split.
  - exact (Nat.iter_swap (length ticks) U run u0).
  - cbn [seq flat_map app]. f_equal.
    rewrite flat_map_seq_shift.
    apply flat_map_ext. intros k.
    change (err (Nat.iter k run (run u0)) = err (run (Nat.iter k run u0))).
    f_equal. exact (Nat.iter_swap k U run u0).
Qed.
